(** * KeySound: the mocked Tauri backend, the WAV encoder and the sound resolver

    The repository is a Tauri application.  Its TypeScript/JavaScript side
    holds
    - [e2e/tauri-mock.ts]: the in-page replacement of the Tauri IPC
      ([injectTauriMock]), a small state machine over [MockState];
    - [scripts/generate-sounds.mjs] and the script that derives the piano
      variants from one decoded sample: PCM synthesis, with the WAV writer
      [encodeWav];
    - the script that trims the decoded piano samples, with its own WAV
      writer [writeWav];
    - [scripts/create-piano-real.mjs]: the choice of a sample for each
      key and the files and key overrides of the piano pack.

    The Rust side (manifest parsing, key-to-sound resolution, volume,
    slot removal in the manifest) is documented in [REQUIREMENTS.md]
    only; the definitions that stand for it are marked as modelled from
    the specification. *)

From Stdlib Require Import QArith Qround Qminmax ZArith.
From Stdlib Require Import Strings.String Strings.Ascii Sorting.Sorted Lia Lqa.
From stdpp Require Import gmap strings list fin_maps pretty.

Local Open Scope string_scope.

(** ** JavaScript numbers

    A JavaScript [number] is a finite value, a NaN or an infinity.  Finite
    values are carried as rationals (every binary64 value is one); signed
    zero plays no part in the code below. *)

Inductive jsnum : Type :=
| Fin (q : Q)
| NaN
| PInf
| NInf.

(** * The mocked backend ([e2e/tauri-mock.ts]) *)

Module Mock.

(** One element of [MockState.packs]. *)
Record Pack : Type := mkPack {
  id : string;
  name : string;
  author : string;
  description : string;
  source : option string          (* [string | null] *)
}.

(** One element of a [customSlots] array. *)
Record Slot : Type := mkSlot {
  slot : string;
  label : string;
  file_name : option string       (* [string | null] *)
}.

(** [customSlots] is an object used as a map from pack id to slot array.
    The map holds the object's own properties; what a read finds under a
    name the object has no property for is [read_slots] below.
    [nextCustomId] is taken to be other than [__proto__], the one name
    whose assignment sets the prototype instead of a property. *)
Record MockState : Type := mkState {
  enabled : bool;
  volume : jsnum;
  activePackId : string;
  packs : list Pack;
  customSlots : gmap string (list Slot);
  nextCustomId : string
}.

Definition DEFAULT_PACKS : list Pack :=
  [ mkPack "default" "HHKB" "KeySound" "Default" None;
    mkPack "my-custom" "My Custom" "You" EmptyString (Some "user");
    mkPack "cherry-mx" "Cherry MX Blue" "KeySound" "Clicky" None ].

(** [ALL_SLOTS] carries [slot] and [label] only. *)
Definition ALL_SLOTS : list (string * string) :=
  [ ("default", "Default Key");
    ("space", "Space");
    ("enter", "Enter");
    ("modifier", "Modifiers");
    ("backspace", "Backspace / Delete") ].

(** [ALL_SLOTS.map((s) => ({ ...s, file_name: ... }))] *)
Definition my_custom_slots : list Slot :=
  map (fun s => mkSlot (fst s) (snd s)
                  (if String.eqb (fst s) "default"
                   then Some "click.wav" else None))
      ALL_SLOTS.

Definition defaultState : MockState :=
  {| enabled := true;
     volume := Fin (8 # 10);
     activePackId := "default";
     packs := DEFAULT_PACKS;
     customSlots := {[ "my-custom" := my_custom_slots ]};
     nextCustomId := "new-pack-1" |}.

(** *** Values crossing the IPC boundary *)

(** [args?: Record<string, unknown>], restricted to the properties the
    handler reads.  [None] is [undefined]. *)
Record Args : Type := mkArgs {
  a_volume : option jsnum;
  a_packId : option string;
  a_name : option string;
  a_slot : option string;
  a_filePath : option string
}.

(** [args?.p] *)
Definition prop {A} (p : Args -> option A) (args : option Args) : option A :=
  match args with
  | Some a => p a
  | None => None
  end.

(** [x ?? y] *)
Definition nullish {A} (x : option A) (y : A) : A :=
  match x with
  | Some v => v
  | None => y
  end.

Inductive Value : Type :=
| VNull
| VBool (b : bool)
| VNum (n : jsnum)
| VStr (s : string)
| VPack (p : Pack)
| VPacks (ps : list Pack)
| VSlots (ss : list Slot).

(** The promise returned by [invoke] settles: resolved with a value, or
    rejected when the handler throws. *)
Inductive Settled : Type :=
| Resolved (v : Value)
| Rejected.

(** *** Array and string helpers of the handler *)

(** [l.findIndex((x, i) => f(x, i))], scanning from index [i]. *)
Fixpoint findIndex_from {A} (f : A -> nat -> bool) (i : nat) (l : list A)
  : option nat :=
  match l with
  | [] => None
  | x :: l' => if f x i then Some i else findIndex_from f (S i) l'
  end.

Definition findIndex {A} (f : A -> nat -> bool) (l : list A) : option nat :=
  findIndex_from f 0 l.

(** [l.splice(i, 0, x)] *)
Definition splice_in {A} (i : nat) (x : A) (l : list A) : list A :=
  (take i l ++ x :: drop i l)%list.

(** [p.source !== "user"] *)
Definition not_user (p : Pack) : bool :=
  match source p with
  | Some s => negb (String.eqb s "user")
  | None => true
  end.

(** [x.slot === slot], where [slot] may be [undefined]. *)
Definition slot_is (k : option string) (x : Slot) : bool :=
  match k with
  | Some s => String.eqb (slot x) s
  | None => false
  end.

(** [const s = slots.find(x => x.slot === k); if (s) s.file_name = fn;]
    The first matching element is updated in place. *)
Fixpoint set_file_name (k : option string) (fn : option string)
    (slots : list Slot) : list Slot :=
  match slots with
  | [] => []
  | x :: rest =>
      if slot_is k x
      then mkSlot (slot x) (label x) fn :: rest
      else x :: set_file_name k fn rest
  end.

(** [filePath.replace(/\\/g, "/")] *)
Fixpoint replace_backslash (s : string) : string :=
  match s with
  | EmptyString => EmptyString
  | String c s' =>
      String (if Ascii.eqb c "\"%char then "/"%char else c)
             (replace_backslash s')
  end.

(** [s.split("/").pop()]: the text after the last slash; [acc] is the
    segment read so far. *)
Fixpoint last_segment_from (acc : string) (s : string) : string :=
  match s with
  | EmptyString => acc
  | String c s' =>
      if Ascii.eqb c "/"%char
      then last_segment_from EmptyString s'
      else last_segment_from (acc ++ String c EmptyString) s'
  end.

Definition fileName_of (filePath : string) : string :=
  last_segment_from EmptyString (replace_backslash filePath).

(** A property key: [undefined] is coerced to the string ["undefined"]. *)
Definition key_of (k : option string) : string := nullish k "undefined".

(** The names of the members of [Object.prototype], the prototype of
    [customSlots]. *)
Definition Object_prototype : list string :=
  [ "constructor"; "__defineGetter__"; "__defineSetter__"; "hasOwnProperty";
    "__lookupGetter__"; "__lookupSetter__"; "isPrototypeOf";
    "propertyIsEnumerable"; "toString"; "valueOf"; "__proto__";
    "toLocaleString" ].

(** What [state.customSlots[key]] evaluates to: the slot array of the
    object's own property; else, under the name of a member of
    [Object.prototype], that member (a function, or the prototype itself
    for [__proto__]: truthy, no array, not iterable); else [undefined]. *)
Inductive Property : Type :=
| Own (slots : list Slot)
| Inherited
| Undefined.

Definition read_slots (key : string) (state : MockState) : Property :=
  match customSlots state !! key with
  | Some slots => Own slots
  | None =>
      if bool_decide (key ∈ Object_prototype) then Inherited else Undefined
  end.

Definition fresh_slots : list Slot :=
  [ mkSlot "default" "Default Key" None;
    mkSlot "space" "Space" None;
    mkSlot "enter" "Enter" None;
    mkSlot "modifier" "Modifiers" None;
    mkSlot "backspace" "Backspace / Delete" None ].

(** *** The handlers, one per [case] *)

Definition toggle_sound (state : MockState) : Settled * MockState :=
  let state' := {| enabled := negb (enabled state);
                   volume := volume state;
                   activePackId := activePackId state;
                   packs := packs state;
                   customSlots := customSlots state;
                   nextCustomId := nextCustomId state |} in
  (Resolved (VBool (enabled state')), state').

Definition set_volume (args : option Args) (state : MockState)
  : Settled * MockState :=
  (Resolved VNull,
   {| enabled := enabled state;
      volume := nullish (prop a_volume args) (volume state);
      activePackId := activePackId state;
      packs := packs state;
      customSlots := customSlots state;
      nextCustomId := nextCustomId state |}).

Definition set_active_pack (args : option Args) (state : MockState)
  : Settled * MockState :=
  (Resolved VNull,
   {| enabled := enabled state;
      volume := volume state;
      activePackId := nullish (prop a_packId args) (activePackId state);
      packs := packs state;
      customSlots := customSlots state;
      nextCustomId := nextCustomId state |}).

Definition create_custom_pack (args : option Args) (state : MockState)
  : Settled * MockState :=
  let name := nullish (prop a_name args) "Untitled" in
  let id := nextCustomId state in
  let pack := mkPack id name "You" EmptyString (Some "user") in
  let firstBundledIdx :=
    findIndex (fun p i => (0 <? i)%nat && not_user p) (packs state) in
  let packs' :=
    match firstBundledIdx with
    | None => (packs state ++ [pack])%list
    | Some i => splice_in i pack (packs state)
    end in
  (Resolved (VPack pack),
   {| enabled := enabled state;
      volume := volume state;
      activePackId := activePackId state;
      packs := packs';
      customSlots := <[id := fresh_slots]> (customSlots state);
      nextCustomId := nextCustomId state |}).

Definition import_sound_file (args : option Args) (state : MockState)
  : Settled * MockState :=
  let packId := prop a_packId args in
  let slot := prop a_slot args in
  match prop a_filePath args with
  | None => (Rejected, state)       (* [undefined.replace] throws *)
  | Some filePath =>
      let fileName := fileName_of filePath in
      match read_slots (key_of packId) state with
      | Own slots =>
          (Resolved VNull,
           {| enabled := enabled state;
              volume := volume state;
              activePackId := activePackId state;
              packs := packs state;
              customSlots :=
                <[key_of packId := set_file_name slot (Some fileName) slots]>
                  (customSlots state);
              nextCustomId := nextCustomId state |})
      | Inherited => (Rejected, state)   (* [slots.find] is no function *)
      | Undefined => (Resolved VNull, state)
      end
  end.

(** [[...(state.customSlots[packId] ?? [])]]: spreading an inherited
    member throws, it is not iterable. *)
Definition get_custom_pack_slots (args : option Args) (state : MockState)
  : Settled * MockState :=
  match read_slots (key_of (prop a_packId args)) state with
  | Own slots => (Resolved (VSlots slots), state)
  | Inherited => (Rejected, state)
  | Undefined => (Resolved (VSlots []), state)
  end.

Definition remove_sound_slot (args : option Args) (state : MockState)
  : Settled * MockState :=
  let packId := prop a_packId args in
  let slot := prop a_slot args in
  match read_slots (key_of packId) state with
  | Own slots =>
      (Resolved VNull,
       {| enabled := enabled state;
          volume := volume state;
          activePackId := activePackId state;
          packs := packs state;
          customSlots :=
            <[key_of packId := set_file_name slot None slots]>
              (customSlots state);
          nextCustomId := nextCustomId state |})
  | Inherited => (Rejected, state)   (* [slots.find] is no function *)
  | Undefined => (Resolved VNull, state)
  end.

(** [p.id !== packId], where [packId] may be [undefined]. *)
Definition id_differs (packId : option string) (p : Pack) : bool :=
  match packId with
  | Some k => negb (String.eqb (id p) k)
  | None => true
  end.

Definition delete_custom_pack (args : option Args) (state : MockState)
  : Settled * MockState :=
  let packId := prop a_packId args in
  (Resolved VNull,
   {| enabled := enabled state;
      volume := volume state;
      activePackId := activePackId state;
      packs := List.filter (id_differs packId) (packs state);
      customSlots := delete (key_of packId) (customSlots state);
      nextCustomId := nextCustomId state |}).

(** [__TAURI_INTERNALS__.invoke(cmd, args)] *)
Definition invoke (cmd : string) (args : option Args) (state : MockState)
  : Settled * MockState :=
  if String.eqb cmd "get_enabled" then (Resolved (VBool (enabled state)), state)
  else if String.eqb cmd "get_volume" then (Resolved (VNum (volume state)), state)
  else if String.eqb cmd "get_sound_packs" then (Resolved (VPacks (packs state)), state)
  else if String.eqb cmd "get_active_pack_id" then (Resolved (VStr (activePackId state)), state)
  else if String.eqb cmd "toggle_sound" then toggle_sound state
  else if String.eqb cmd "set_volume" then set_volume args state
  else if String.eqb cmd "set_active_pack" then set_active_pack args state
  else if String.eqb cmd "play_sound" then (Resolved VNull, state)
  else if String.eqb cmd "create_custom_pack" then create_custom_pack args state
  else if String.eqb cmd "import_sound_file" then import_sound_file args state
  else if String.eqb cmd "get_custom_pack_slots" then get_custom_pack_slots args state
  else if String.eqb cmd "remove_sound_slot" then remove_sound_slot args state
  else if String.eqb cmd "delete_custom_pack" then delete_custom_pack args state
  else (Resolved VNull, state).

(** A sequence of calls on one page: the state is threaded through. *)
Fixpoint run (calls : list (string * option Args)) (state : MockState)
  : MockState :=
  match calls with
  | [] => state
  | (cmd, args) :: rest => run rest (snd (invoke cmd args state))
  end.

End Mock.

(** * The WAV writer ([encodeWav] of [scripts/generate-sounds.mjs])

    The piano variant script carries the same [encodeWav], line for line.  A Node [Buffer] is a list of
    bytes, each a [Z] in [0, 255]; a call that throws yields [None]. *)

Module Wav.

Definition SAMPLE_RATE : Z := 44100.
Definition BIT_DEPTH : Z := 16.

(** [a < b] on rationals, as a boolean. *)
Definition Qltb (a b : Q) : bool := negb (Qle_bool b a).

(** Conversion of a finite number to an integer by truncation, the first
    step of storing it into a byte array. *)
Definition Qtrunc (q : Q) : Z :=
  if Qle_bool 0 q then Qfloor q else Qceiling q.

(** [Math.min(a, b)] *)
Definition js_min (a b : jsnum) : jsnum :=
  match a, b with
  | NaN, _ | _, NaN => NaN
  | NInf, _ | _, NInf => NInf
  | PInf, y => y
  | x, PInf => x
  | Fin p, Fin q => if Qle_bool p q then Fin p else Fin q
  end.

(** [Math.max(a, b)] *)
Definition js_max (a b : jsnum) : jsnum :=
  match a, b with
  | NaN, _ | _, NaN => NaN
  | PInf, _ | _, PInf => PInf
  | NInf, y => y
  | x, NInf => x
  | Fin p, Fin q => if Qle_bool p q then Fin q else Fin p
  end.

(** [a < b]: false as soon as an operand is NaN. *)
Definition js_ltb (a b : jsnum) : bool :=
  match a, b with
  | NaN, _ | _, NaN => false
  | _, NInf => false
  | NInf, _ => true
  | PInf, _ => false
  | _, PInf => true
  | Fin p, Fin q => Qltb p q
  end.

(** [Math.round(x)]: the nearest integer, halves going up. *)
Definition js_round (x : jsnum) : jsnum :=
  match x with
  | Fin q => Fin (inject_Z (Qfloor (q + (1 # 2))))
  | other => other
  end.

(** The byte of [value] at position [k], least significant first:
    [(value >>> (8 * k)) & 0xff]. *)
Definition byte_at (value : Z) (k : nat) : Z :=
  Z.land (Z.shiftr value (8 * Z.of_nat k)) 255.

(** [buf[offset] = b0; buf[offset + 1] = b1; ...] for the [n] low bytes. *)
Fixpoint store_le (value : Z) (n k : nat) (offset : nat) (buf : list Z)
  : list Z :=
  match n with
  | O => buf
  | S n' => store_le value n' (S k) offset
              (<[(offset + k)%nat := byte_at value k]> buf)
  end.

(** [buf.write(string, offset)] for text in the Latin-1 range: one byte
    per character, what does not fit is dropped. *)
Fixpoint write (text : string) (offset : nat) (buf : list Z) : list Z :=
  match text with
  | EmptyString => buf
  | String c rest =>
      write rest (S offset) (<[offset := Z.of_N (N_of_ascii c)]> buf)
  end.

(** The unsigned and signed writers check the value, then the offset, and
    throw [ERR_OUT_OF_RANGE] when either check fails. *)
Definition writeUIntLE (nbytes : nat) (max : Z) (value : Z) (offset : nat)
    (buf : list Z) : option (list Z) :=
  if (max <? value)%Z || (value <? 0)%Z then None
  else if (length buf <? offset + nbytes)%nat then None
  else Some (store_le value nbytes 0 offset buf).

Definition writeUInt32LE := writeUIntLE 4 4294967295.
Definition writeUInt16LE := writeUIntLE 2 65535.

(** [buf.writeInt16LE(value, offset)].  The range test is
    [value > 0x7fff || value < -0x8000]; a NaN passes it and is stored as
    zero. *)
Definition writeInt16LE (value : jsnum) (offset : nat) (buf : list Z)
  : option (list Z) :=
  match value with
  | Fin q =>
      if Qltb (32767 # 1) q || Qltb q (-32768 # 1) then None
      else if (length buf <? offset + 2)%nat then None
      else Some (store_le (Qtrunc q) 2 0 offset buf)
  | NaN =>
      if (length buf <? offset + 2)%nat then None
      else Some (store_le 0 2 0 offset buf)
  | PInf | NInf => None
  end.

(** Readers, used to state what the header holds. *)
Fixpoint readUIntLE (nbytes : nat) (offset : nat) (buf : list Z) : option Z :=
  match nbytes with
  | O => Some 0%Z
  | S n' =>
      b ← buf !! offset;
      hi ← readUIntLE n' (S offset) buf;
      Some (b + 256 * hi)%Z
  end.

Definition readUInt32LE := readUIntLE 4.

Definition readInt16LE (offset : nat) (buf : list Z) : option Z :=
  u ← readUIntLE 2 offset buf;
  Some (if (u <? 32768)%Z then u else u - 65536)%Z.

Section Node.

(** [buffer.constants.MAX_LENGTH], which depends on the Node release. *)
Variable MAX_LENGTH : Z.

(** Rounding of an exact product to the nearest binary64 value. *)
Variable rnd : Q -> Q.

(** [Buffer.alloc(size)] *)
Definition alloc (size : Z) : option (list Z) :=
  if (size <? 0)%Z || (MAX_LENGTH <? size)%Z then None
  else Some (replicate (Z.to_nat size) 0%Z).

(** [s * k] for a positive constant [k].  The products taken by
    [encodeWav] have a factor of magnitude at most one, so they do not
    overflow. *)
Definition js_scale (s : jsnum) (k : Q) : jsnum :=
  match s with
  | Fin q => Fin (rnd (q * k))
  | other => other
  end.

(** The body of the sample loop up to the argument of [writeInt16LE]:
    [s], [val] and [Math.round(val)]. *)
Definition clamped (sample : jsnum) : jsnum :=
  js_max (Fin (-1 # 1)) (js_min (Fin 1) sample).

Definition scaled (s : jsnum) : jsnum :=
  if js_ltb s (Fin 0) then js_scale s (32768 # 1) else js_scale s (32767 # 1).

Definition int16_arg (sample : jsnum) : jsnum :=
  js_round (scaled (clamped sample)).

(** [for (let i = 0; i < samples.length; i++) ...], from index [i] on. *)
Fixpoint write_samples (samples : list jsnum) (i : nat) (buffer : list Z)
  : option (list Z) :=
  match samples with
  | [] => Some buffer
  | x :: rest =>
      buffer ← writeInt16LE (int16_arg x) (44 + i * 2) buffer;
      write_samples rest (S i) buffer
  end.

Definition encodeWav (samples : list jsnum) (sampleRate : Z)
  : option (list Z) :=
  let numChannels := 1%Z in
  let bytesPerSample := (BIT_DEPTH / 8)%Z in
  let dataSize := (Z.of_nat (length samples) * bytesPerSample)%Z in
  buffer ← alloc (44 + dataSize);
  let buffer := write "RIFF" 0 buffer in
  buffer ← writeUInt32LE (36 + dataSize) 4 buffer;
  let buffer := write "WAVE" 8 buffer in
  let buffer := write "fmt " 12 buffer in
  buffer ← writeUInt32LE 16 16 buffer;
  buffer ← writeUInt16LE 1 20 buffer;
  buffer ← writeUInt16LE numChannels 22 buffer;
  buffer ← writeUInt32LE sampleRate 24 buffer;
  buffer ← writeUInt32LE (sampleRate * numChannels * bytesPerSample) 28 buffer;
  buffer ← writeUInt16LE (numChannels * bytesPerSample) 32 buffer;
  buffer ← writeUInt16LE BIT_DEPTH 34 buffer;
  let buffer := write "data" 36 buffer in
  buffer ← writeUInt32LE dataSize 40 buffer;
  write_samples samples 0 buffer.

End Node.

(** The two bytes [writeInt16LE] stores for a value it accepts. *)
Definition sample_bytes (value : jsnum) : list Z :=
  match value with
  | Fin q => [byte_at (Qtrunc q) 0; byte_at (Qtrunc q) 1]
  | _ => [0; 0]%Z
  end.

Definition le16 (value : Z) : list Z := [byte_at value 0; byte_at value 1].
Definition le32 (value : Z) : list Z :=
  [byte_at value 0; byte_at value 1; byte_at value 2; byte_at value 3].

(** The 44 bytes the header writes leave at the front of the buffer, for a
    data size and a sample rate. *)
Definition header (dataSize sampleRate : Z) : list Z :=
  ([82; 73; 70; 70]%Z ++ le32 (36 + dataSize)
   ++ [87; 65; 86; 69]%Z
   ++ [102; 109; 116; 32]%Z ++ le32 16 ++ le16 1 ++ le16 1
   ++ le32 sampleRate ++ le32 (sampleRate * 1 * (BIT_DEPTH / 8))
   ++ le16 (1 * (BIT_DEPTH / 8)) ++ le16 BIT_DEPTH
   ++ [100; 97; 116; 97]%Z ++ le32 dataSize)%list.

(** A valid signed 16-bit integer, the argument [writeInt16LE] is
    documented for. *)
Definition is_int16 (v : jsnum) : Prop :=
  exists z : Z, v = Fin (inject_Z z) /\ (-32768 <= z <= 32767)%Z.

(** A number within [-1, 1]. *)
Definition in_unit_range (v : jsnum) : Prop :=
  exists q : Q, v = Fin q /\ (-1 # 1 <= q)%Q /\ (q <= 1)%Q.

(** What the writer is said to do for a sample array: a buffer of
    [44 + 2n] bytes, the two size fields, every sample clamped into
    [-1, 1] and every argument of [writeInt16LE] a signed 16-bit integer. *)
Definition encodes_as_stated (MAX_LENGTH : Z) (rnd : Q -> Q)
    (samples : list jsnum) : Prop :=
  let n := Z.of_nat (length samples) in
  exists buffer,
    encodeWav MAX_LENGTH rnd samples SAMPLE_RATE = Some buffer /\
    Z.of_nat (length buffer) = (44 + 2 * n)%Z /\
    readUInt32LE 4 buffer = Some (36 + 2 * n)%Z /\
    readUInt32LE 40 buffer = Some (2 * n)%Z /\
    forall (i : nat) (x : jsnum),
      samples !! i = Some x ->
      in_unit_range (clamped x) /\ is_int16 (int16_arg rnd x).

(** The same with its two provisos: the size fields are 32-bit and the
    buffer has a largest length, and a NaN sample is neither clamped nor
    turned into an integer; it is stored as zero. *)
Definition encodes_as_amended (MAX_LENGTH : Z) (rnd : Q -> Q)
    (samples : list jsnum) : Prop :=
  let n := Z.of_nat (length samples) in
  exists buffer,
    encodeWav MAX_LENGTH rnd samples SAMPLE_RATE = Some buffer /\
    Z.of_nat (length buffer) = (44 + 2 * n)%Z /\
    readUInt32LE 4 buffer = Some (36 + 2 * n)%Z /\
    readUInt32LE 40 buffer = Some (2 * n)%Z /\
    forall (i : nat) (x : jsnum),
      samples !! i = Some x ->
      (x <> NaN ->
       in_unit_range (clamped x) /\
       exists z, int16_arg rnd x = Fin (inject_Z z) /\
                 (-32768 <= z <= 32767)%Z /\
                 readInt16LE (44 + 2 * i) buffer = Some z) /\
      (x = NaN ->
       int16_arg rnd x = NaN /\
       readInt16LE (44 + 2 * i) buffer = Some 0%Z).

(** The value of binary64 rounding used where a concrete one is needed:
    exact arithmetic. *)
Definition rnd_exact (q : Q) : Q := q.

(** [buffer.constants.MAX_LENGTH] of Node 22 on 64-bit platforms. *)
Definition MAX_LENGTH_node22 : Z := 9007199254740991.

End Wav.

(** * The sound resolver and the volume stage

    [src-tauri/src/sound_pack.rs] and [sound_engine.rs] are not among the
    TypeScript sources; what follows is written from sections 3 and 4.2 of
    the specification. *)

Module Resolver.

Record Defaults : Type := mkDefaults {
  assetRef : string;
  volume : Q
}.

(** [keyOverrides]: both fields optional. *)
Record KeyOverride : Type := mkKeyOverride {
  key_assetRef : option string;
  key_volume : option Q
}.

(** [categoryOverrides]: a key set, an asset and an optional volume.  The
    asset is optional here so that the per-field fallback of step 2 has an
    object; a manifest that always gives it is the case [Some]. *)
Record CategoryOverride : Type := mkCategoryOverride {
  keys : list string;
  cat_assetRef : option string;
  cat_volume : option Q
}.

(** The categories are kept in manifest declaration order, the order the
    specification resolves a doubly covered key by. *)
Record SoundPack : Type := mkSoundPack {
  defaults : Defaults;
  keyOverrides : gmap string KeyOverride;
  categoryOverrides : list (string * CategoryOverride)
}.

Inductive Resolution : Type :=
| Silent
| Sound (asset : string) (vol : Q).

Definition covers (keyId : string) (c : string * CategoryOverride) : bool :=
  existsb (String.eqb keyId) (keys (snd c)).

(** Modelled from the spec: steps 1 to 3 of [resolve] (section 4.2), the
    part of [sound_pack.rs] that picks asset and volume.  A key override
    is used when present, else the first category in declaration order
    whose key set contains the key, else the defaults; an unset field
    falls back to the default of that field. *)
Definition resolve_tiers (pack : SoundPack) (keyId : string) : string * Q :=
  let d := defaults pack in
  match keyOverrides pack !! keyId with
  | Some o =>
      (default (assetRef d) (key_assetRef o),
       default (volume d) (key_volume o))
  | None =>
      match List.find (covers keyId) (categoryOverrides pack) with
      | Some (_, c) =>
          (default (assetRef d) (cat_assetRef c),
           default (volume d) (cat_volume c))
      | None => (assetRef d, volume d)
      end
  end.

(** Modelled from the spec: [resolve] with its step 4.  [loaded] tells
    whether an asset has a decoded buffer in the engine's cache; an asset
    without one resolves to [Silent]. *)
Definition resolve (loaded : string -> bool) (pack : SoundPack)
    (keyId : string) : Resolution :=
  let '(asset, vol) := resolve_tiers pack keyId in
  if loaded asset then Sound asset vol else Silent.

Definition with_categories (pack : SoundPack)
    (cats : list (string * CategoryOverride)) : SoundPack :=
  {| defaults := defaults pack;
     keyOverrides := keyOverrides pack;
     categoryOverrides := cats |}.

(** Modelled from the spec: [clamp(x, lo, hi)] of the compositing formula,
    the value [x] brought back into [lo, hi]. *)
Definition clamp (x lo hi : Q) : Q :=
  if Qle_bool x lo then lo else if Qle_bool hi x then hi else x.

(** Modelled from the spec: the volume compositing of section 4.2,
    [finalVolume = clamp(masterVolume * resolvedVolume, 0, 1)], the
    arithmetic of [sound_engine.rs] before the conversion to decibels.
    Volumes are rationals. *)
Definition finalVolume (masterVolume resolvedVolume : Q) : Q :=
  clamp (masterVolume * resolvedVolume) 0 1.

(** The playback gain: the floor when the volume is zero, else
    [20 * log10 v], which is left symbolic. *)
Inductive Gain : Type :=
| Floor
| Decibels (v : Q).

Definition gain_floor_dB : Q := -60 # 1.

(** Modelled from the spec: the conversion of a composed volume to a
    playback gain, with the floor at [v == 0]. *)
Definition gain_of (v : Q) : Gain :=
  if Qeq_bool v 0 then Floor else Decibels v.

(** Modelled from the spec: what reaches the output for one key press,
    the resolver's result after compositing.  A composed volume of zero
    is the gain floor and counts as [Silent]. *)
Definition composite (masterVolume : Q) (r : Resolution) : Resolution :=
  match r with
  | Silent => Silent
  | Sound asset vol =>
      let v := finalVolume masterVolume vol in
      match gain_of v with
      | Floor => Silent
      | Decibels _ => Sound asset v
      end
  end.

End Resolver.

(** * Slot removal in the manifest

    [removeSlot] is part of the Rust lifecycle manager as well.  The
    mocked backend keeps display names only ([file_name], the
    [originalNames] of the manifest); the asset a slot plays is in the
    manifest, which is modelled here. *)

Module Lifecycle.
Import Resolver.

(** Modelled from the spec: the three kinds of slot of sections 3 and
    4.5, which the Rust side tells apart: the default slot, one of the
    other four category names, a per-key token. *)
Inductive SlotKind : Type :=
| DefaultSlot
| CategorySlot (category : string)
| KeySlot (keyId : string).

Definition slot_kind (slotKey : string) : SlotKind :=
  if String.eqb slotKey "default" then DefaultSlot
  else if existsb (String.eqb slotKey)
                  ["space"; "enter"; "modifier"; "backspace"]
       then CategorySlot slotKey
       else KeySlot slotKey.

(** Modelled from the spec: [e] is the entry of [categoryOverrides] under
    the name [category]. *)
Definition named (category : string) (e : string * CategoryOverride) : bool :=
  String.eqb (fst e) category.

Section Placeholder.

(** The asset reference of the generated silence placeholder. *)
Variable silence : string.

(** Modelled from the spec: [removeSlot(packId, slotKey)] of section 4.4 on
    the manifest of the pack, the part of the Rust lifecycle manager that
    answers [remove_sound_slot].  For the default slot the asset is
    replaced by the silence placeholder; for a category or key slot the
    override is removed entirely. *)
Definition removeSlot (pack : SoundPack) (slotKey : string) : SoundPack :=
  match slot_kind slotKey with
  | DefaultSlot =>
      {| defaults := mkDefaults silence (volume (defaults pack));
         keyOverrides := keyOverrides pack;
         categoryOverrides := categoryOverrides pack |}
  | CategorySlot category =>
      {| defaults := defaults pack;
         keyOverrides := keyOverrides pack;
         categoryOverrides :=
           List.filter (fun e => negb (named category e))
                       (categoryOverrides pack) |}
  | KeySlot keyId =>
      {| defaults := defaults pack;
         keyOverrides := delete keyId (keyOverrides pack);
         categoryOverrides := categoryOverrides pack |}
  end.

End Placeholder.

(** Modelled from the spec: what a slot holds in the manifest of section
    3.  The default slot holds the asset of [defaults]; a category or key
    slot holds its override or nothing. *)
Inductive Held : Type :=
| Asset (assetRef : string)
| CategoryEntry (c : CategoryOverride)
| KeyEntry (o : KeyOverride)
| NoOverride.

Definition held (pack : SoundPack) (slotKey : string) : Held :=
  match slot_kind slotKey with
  | DefaultSlot => Asset (assetRef (defaults pack))
  | CategorySlot category =>
      match List.find (named category) (categoryOverrides pack) with
      | Some e => CategoryEntry (snd e)
      | None => NoOverride
      end
  | KeySlot keyId =>
      match keyOverrides pack !! keyId with
      | Some o => KeyEntry o
      | None => NoOverride
      end
  end.


End Lifecycle.

(** * Vocabulary of the statements about the mocked backend *)

Module Listing.
Import Mock.

(** [p.source === "user"] *)
Definition is_user (p : Pack) : bool := negb (not_user p).

(** Alphabetical order of two packs by name: the order of the character
    codes. *)
Definition name_le (p q : Pack) : Prop := String.leb (name p) (name q) = true.

(** The default pack, then user packs, then bundled packs. *)
Definition grouped (l : list Pack) (d : Pack) (users bundled : list Pack)
  : Prop :=
  l = (d :: users ++ bundled)%list /\
  id d = "default" /\
  Forall (fun p => is_user p = true) users /\
  Forall (fun p => is_user p = false) bundled.

(** The order of section 4.1: grouped, each group alphabetical by name. *)
Definition ordered (l : list Pack) : Prop :=
  exists d users bundled,
    grouped l d users bundled /\
    Sorted name_le users /\ Sorted name_le bundled.

(** The slot a key addresses in a slot list: [slots.find(x => x.slot === k)]. *)
Definition find_slot (k : string) (slots : list Slot) : option Slot :=
  List.find (slot_is (Some k)) slots.

(** The arguments of the commands, as the front end sends them. *)
Definition args_name (n : string) : option Args :=
  Some (mkArgs None None (Some n) None None).
Definition args_pack (packId : string) : option Args :=
  Some (mkArgs None (Some packId) None None None).
Definition args_slot (packId slot : string) : option Args :=
  Some (mkArgs None (Some packId) None (Some slot) None).
Definition args_import (packId slot filePath : string) : option Args :=
  Some (mkArgs None (Some packId) None (Some slot) (Some filePath)).



(** The extension of a path is one of mp3, wav, ogg. *)
Fixpoint ends_with (suffix s : string) : bool :=
  String.eqb s suffix ||
  match s with
  | EmptyString => false
  | String _ rest => ends_with suffix rest
  end.

Definition allowed_extension (filePath : string) : bool :=
  ends_with ".mp3" filePath || ends_with ".wav" filePath ||
  ends_with ".ogg" filePath.

(** The record [create_custom_pack] builds. *)
Definition created (name : option string) (state : MockState) : Pack :=
  mkPack (nextCustomId state) (nullish name "Untitled") "You" EmptyString
         (Some "user").

(** A call that is refused: the promise is rejected and the state is the
    one before the call. *)
Definition refused (r : Settled * MockState) (before : MockState) : Prop :=
  fst r = Rejected /\ snd r = before.

End Listing.

(** * Vocabulary for sessions of calls and for the bytes of a file *)

Module Session.
Import Mock Listing.

(** The commands whose [case] writes the state. *)
Definition mutating : list string :=
  [ "toggle_sound"; "set_volume"; "set_active_pack"; "create_custom_pack";
    "import_sound_file"; "remove_sound_slot"; "delete_custom_pack" ].

(** The commands a [case] exists for. *)
Definition handled : list string :=
  [ "get_enabled"; "get_volume"; "get_sound_packs"; "get_active_pack_id";
    "toggle_sound"; "set_volume"; "set_active_pack"; "play_sound";
    "create_custom_pack"; "import_sound_file"; "get_custom_pack_slots";
    "remove_sound_slot"; "delete_custom_pack" ].

(** The calls of a sequence that carry the command [c]. *)
Definition calls_of (c : string) (calls : list (string * option Args))
  : list (string * option Args) :=
  List.filter (fun call => String.eqb (fst call) c) calls.





(** The arguments of [set_volume]. *)
Definition args_volume (v : jsnum) : option Args :=
  Some (mkArgs (Some v) None None None None).

(** The character [c] occurs in the text. *)
Fixpoint occurs (c : ascii) (s : string) : bool :=
  match s with
  | EmptyString => false
  | String d rest => Ascii.eqb d c || occurs c rest
  end.

(** A path separator occurs in the text: a slash or a backslash. *)
Definition has_separator (s : string) : bool :=
  occurs "/"%char s || occurs "\"%char s.

End Session.

Module WavWords.
Import Wav.

(** The order of two numbers neither of which is NaN. *)
Definition js_le (a b : jsnum) : Prop :=
  match a, b with
  | NaN, _ | _, NaN => False
  | NInf, _ => True
  | _, PInf => True
  | Fin p, Fin q => (p <= q)%Q
  | _, _ => False
  end.

Definition readUInt16LE := readUIntLE 2.

(** [buf.subarray(offset, offset + n)] as a list. *)
Definition slice (offset n : nat) (buf : list Z) : list Z :=
  take n (drop offset buf).

(** The character codes of a text. *)
Fixpoint codes (text : string) : list Z :=
  match text with
  | EmptyString => []
  | String c rest => Z.of_N (N_of_ascii c) :: codes rest
  end.

(** The conditions under which [encodeWav] does not throw. *)
Definition fits (MAX_LENGTH : Z) (n : nat) (sampleRate : Z) : Prop :=
  (44 + 2 * Z.of_nat n <= MAX_LENGTH)%Z /\
  (36 + 2 * Z.of_nat n <= 4294967295)%Z /\
  (0 <= sampleRate <= 2147483647)%Z.

End WavWords.

(** * The WAV writer of the trimming script ([writeWav]) *)

Module Trim.
Import Wav.

Section Node.

Variable MAX_LENGTH : Z.
Variable rnd : Q -> Q.

(** The body of the sample loop up to the argument of [writeInt16LE]:
    the clamped sample and [Math.round(sample * 32767)]. *)
Definition intSample (sample : jsnum) : jsnum :=
  js_round (js_scale rnd (clamped sample) (32767 # 1)).

(** [for (let i = 0; i < numSamples; i++) ...], from index [i] on. *)
Fixpoint write_samples (samples : list jsnum) (i : nat) (buffer : list Z)
  : option (list Z) :=
  match samples with
  | [] => Some buffer
  | x :: rest =>
      buffer ← writeInt16LE (intSample x) (44 + i * 2) buffer;
      write_samples rest (S i) buffer
  end.

(** [writeWav(filePath, samples, sampleRate)]: [None] when a write throws,
    otherwise the path and the buffer handed to [writeFileSync]. *)
Definition writeWav (filePath : string) (samples : list jsnum)
    (sampleRate : Z) : option (string * list Z) :=
  let numSamples := Z.of_nat (length samples) in
  let bytesPerSample := 2%Z in
  let dataSize := (numSamples * bytesPerSample)%Z in
  buffer ← alloc MAX_LENGTH (44 + dataSize);
  let buffer := write "RIFF" 0 buffer in
  buffer ← writeUInt32LE (36 + dataSize) 4 buffer;
  let buffer := write "WAVE" 8 buffer in
  let buffer := write "fmt " 12 buffer in
  buffer ← writeUInt32LE 16 16 buffer;
  buffer ← writeUInt16LE 1 20 buffer;
  buffer ← writeUInt16LE 1 22 buffer;
  buffer ← writeUInt32LE sampleRate 24 buffer;
  buffer ← writeUInt32LE (sampleRate * bytesPerSample) 28 buffer;
  buffer ← writeUInt16LE bytesPerSample 32 buffer;
  buffer ← writeUInt16LE 16 34 buffer;
  let buffer := write "data" 36 buffer in
  buffer ← writeUInt32LE dataSize 40 buffer;
  buffer ← write_samples samples 0 buffer;
  Some (filePath, buffer).

End Node.

(** A sample that is NaN or at least zero. *)
Definition not_negative (x : jsnum) : Prop :=
  x = NaN \/ WavWords.js_le (Fin 0) x.

End Trim.

(** * The script that builds the piano pack ([scripts/create-piano-real.mjs]) *)

Module Piano.

Definition AVAILABLE_OFFSETS : list Z := [0; 3; 6; 9]%Z.

Definition NOTE_NAMES_BY_OFFSET : list (Z * string) :=
  [(0, "C"); (3, "D#"); (6, "F#"); (9, "A")]%Z.

Definition SEMITONE : list (string * Z) :=
  [("C", 0); ("C#", 1); ("D", 2); ("D#", 3); ("E", 4); ("F", 5);
   ("F#", 6); ("G", 7); ("G#", 8); ("A", 9); ("A#", 10); ("B", 11)]%Z.

(** [SEMITONE[note]]: [None] is [undefined]. *)
Definition semitone (note : string) : option Z :=
  snd <$> List.find (fun e => String.eqb (fst e) note) SEMITONE.

(** [NOTE_NAMES_BY_OFFSET[offset]] as a template prints it. *)
Definition sample_note (offset : Z) : string :=
  default "undefined"
    (snd <$> List.find (fun e => Z.eqb (fst e) offset) NOTE_NAMES_BY_OFFSET).

(** [Math.abs(targetSemitone - off)]: [None] is NaN, the value for a
    note [SEMITONE] does not have. *)
Definition distance (targetSemitone : option Z) (off : Z) : option Z :=
  t ← targetSemitone; Some (Z.abs (t - off)).

(** [for (const off of AVAILABLE_OFFSETS) ...]: the comparison
    [dist < bestDist] is false for NaN. *)
Fixpoint nearest_from (targetSemitone : option Z) (offsets : list Z)
    (bestOffset bestDist : Z) : Z :=
  match offsets with
  | [] => bestOffset
  | off :: rest =>
      match distance targetSemitone off with
      | Some dist =>
          if (dist <? bestDist)%Z
          then nearest_from targetSemitone rest off dist
          else nearest_from targetSemitone rest bestOffset bestDist
      | None => nearest_from targetSemitone rest bestOffset bestDist
      end
  end.

(** [nearestSampleFile(note, octave)] for an octave that is a safe
    integer (of magnitude below [2^53]), which a template prints in
    decimal; the octaves of [keyMapping] are 2 to 5.  Larger numbers,
    which a template rounds or prints with an exponent, are outside this
    definition. *)
Definition nearestSampleFile (note : string) (octave : Z) : string :=
  let targetSemitone := semitone note in
  if (octave =? 0)%Z then "A0v8.wav"
  else
    let bestOffset :=
      nearest_from targetSemitone AVAILABLE_OFFSETS
        (hd 0%Z AVAILABLE_OFFSETS) 12 in
    sample_note bestOffset ++ pretty octave ++ "v8.wav".

(** [s.replace(pattern, replacement)] for a string pattern and a
    replacement without [$]: the first occurrence is replaced. *)
Fixpoint strip_prefix (pattern s : string) : option string :=
  match pattern, s with
  | EmptyString, _ => Some s
  | String p pattern', String c s' =>
      if Ascii.eqb p c then strip_prefix pattern' s' else None
  | String _ _, EmptyString => None
  end.

Fixpoint js_replace (pattern replacement s : string) : string :=
  match strip_prefix pattern s with
  | Some rest => replacement ++ rest
  | None =>
      match s with
      | EmptyString => EmptyString
      | String c s' => String c (js_replace pattern replacement s')
      end
  end.

(** [s.toLowerCase()] for ASCII text. *)
Definition lower (c : ascii) : ascii :=
  let n := nat_of_ascii c in
  if (65 <=? n)%nat && (n <=? 90)%nat then ascii_of_nat (n + 32) else c.

Fixpoint toLowerCase (s : string) : string :=
  match s with
  | EmptyString => EmptyString
  | String c s' => String (lower c) (toLowerCase s')
  end.

Definition sampleToDstName (srcFile : string) : string :=
  let base :=
    js_replace "#" "sharp"
      (toLowerCase (js_replace "v8.wav" EmptyString srcFile)) in
  "keydown-" ++ base ++ ".wav".

(** [keyMapping]: rdev key name, note and octave, in the order written. *)
Definition keyMapping : list (string * (string * Z)) :=
  [ ("Comma", ("A", 2)); ("Period", ("B", 2));
    ("KeyZ", ("C", 3)); ("KeyS", ("C#", 3)); ("KeyX", ("D", 3));
    ("KeyD", ("D#", 3)); ("KeyC", ("E", 3)); ("KeyV", ("F", 3));
    ("KeyG", ("F#", 3)); ("KeyB", ("G", 3)); ("KeyH", ("G#", 3));
    ("KeyN", ("A", 3)); ("KeyJ", ("A#", 3)); ("KeyM", ("B", 3));
    ("KeyQ", ("C", 4)); ("Digit2", ("C#", 4)); ("KeyW", ("D", 4));
    ("Digit3", ("D#", 4)); ("KeyE", ("E", 4)); ("KeyR", ("F", 4));
    ("Digit5", ("F#", 4)); ("KeyT", ("G", 4)); ("Digit6", ("G#", 4));
    ("KeyY", ("A", 4)); ("Digit7", ("A#", 4)); ("KeyU", ("B", 4));
    ("KeyI", ("C", 5)); ("Digit8", ("C#", 5)); ("KeyO", ("D", 5));
    ("Digit9", ("D#", 5)); ("KeyP", ("E", 5)); ("Digit0", ("F", 5));
    ("KeyA", ("B", 2)); ("KeyK", ("C", 4)); ("KeyL", ("D", 4));
    ("Semicolon", ("E", 4)); ("KeyF", ("E", 3)); ("Slash", ("C", 3)) ]%Z.

(** A [Map] from strings to strings, in insertion order. *)
Definition has (key : string) (m : list (string * string)) : bool :=
  existsb (fun e => String.eqb (fst e) key) m.

Definition get (key : string) (m : list (string * string)) : option string :=
  snd <$> List.find (fun e => String.eqb (fst e) key) m.

Definition set (key value : string) (m : list (string * string))
  : list (string * string) :=
  if has key m
  then map (fun e => if String.eqb (fst e) key then (key, value) else e) m
  else (m ++ [(key, value)])%list.

(** An entry of [keyOverrides]. *)
Record Override := mkOverride { keydown : string; volume : Q }.

(** The body of the loop over [Object.entries(keyMapping)], on
    [samplesToCopy] and [keyOverrides]. *)
Definition visit (state : list (string * string) * gmap string Override)
    (entry : string * (string * Z))
  : list (string * string) * gmap string Override :=
  let '(samplesToCopy, keyOverrides) := state in
  let '(rdevKey, (note, octave)) := entry in
  let srcFile := nearestSampleFile note octave in
  let samplesToCopy :=
    if negb (has srcFile samplesToCopy)
    then set srcFile (sampleToDstName srcFile) samplesToCopy
    else samplesToCopy in
  let dstFile := default "undefined" (get srcFile samplesToCopy) in
  (samplesToCopy,
   <[rdevKey := mkOverride ("sounds/" ++ dstFile) 1]> keyOverrides).

(** [specialSamples]: destination and source. *)
Definition specialSamples : list (string * string) :=
  [ ("keydown.wav", "C4v8.wav");
    ("keydown-space.wav", "C4v8.wav");
    ("keydown-enter.wav", "C5v8.wav");
    ("keydown-backspace.wav", "C2v8.wav");
    ("keydown-modifier.wav", "C1v8.wav") ].

(** What the script does for a key mapping: the calls of [copyFileSync],
    as source under the samples directory and destination under the
    sounds directory, in order, and the [key_overrides] of the manifest. *)
Record Plan := mkPlan {
  copies : list (string * string);
  key_overrides : gmap string Override
}.

Definition main (keyMapping : list (string * (string * Z))) : Plan :=
  let '(samplesToCopy, keyOverrides) :=
    fold_left visit keyMapping ([], ∅) in
  let copied :=
    (samplesToCopy ++ map (fun e => (snd e, fst e)) specialSamples)%list in
  let keyOverrides :=
    <["Space" := mkOverride "sounds/keydown-space.wav" 1]> keyOverrides in
  let keyOverrides :=
    <["Return" := mkOverride "sounds/keydown-enter.wav" 1]> keyOverrides in
  mkPlan copied keyOverrides.

(** Vocabulary of the statements. *)
Fixpoint all_chars (P : ascii -> bool) (s : string) : bool :=
  match s with
  | EmptyString => true
  | String c s' => P c && all_chars P s'
  end.

(** An octave that is a safe integer: every such number is a JavaScript
    number and is printed in decimal, digit for digit. *)
Definition safe_integer (octave : Z) : Prop := (Z.abs octave < 2 ^ 53)%Z.

(** A decimal digit or the minus sign. *)
Definition plain (c : ascii) : bool :=
  let n := nat_of_ascii c in
  ((48 <=? n)%nat && (n <=? 57)%nat) || (n =? 45)%nat.

(** The offset the search of [nearestSampleFile] ends on. *)
Definition best (note : string) : Z :=
  nearest_from (semitone note) AVAILABLE_OFFSETS 0 12.

(** The name a sample note has in a destination. *)
Definition dst_note (offset : Z) : string :=
  js_replace "#" "sharp" (toLowerCase (sample_note offset)).

End Piano.

(** * Facts about the mocked backend *)

Module MockFacts.
Import Mock Listing.

Example fileName_backslash :
  fileName_of "C:\sounds\click.wav" = "click.wav".
Proof. reflexivity. Qed.

Example fileName_plain : fileName_of "click.wav" = "click.wav".
Proof. reflexivity. Qed.

(** ** [toggle_sound] *)

(** C9.  [toggle_sound] flips [enabled] and returns the new value; every
    other field of the state is left as it was, and a second call restores
    the state the first one started from. *)
Theorem toggle_sound_involution (args args' : option Args) (state : MockState) :
  let r1 := invoke "toggle_sound" args state in
  let r2 := invoke "toggle_sound" args' (snd r1) in
  fst r1 = Resolved (VBool (negb (enabled state))) /\
  enabled (snd r1) = negb (enabled state) /\
  volume (snd r1) = volume state /\
  activePackId (snd r1) = activePackId state /\
  packs (snd r1) = packs state /\
  customSlots (snd r1) = customSlots state /\
  nextCustomId (snd r1) = nextCustomId state /\
  fst r2 = Resolved (VBool (enabled state)) /\
  snd r2 = state.
Proof.
  destruct state as [e v a p c n]; cbn.
  rewrite negb_involutive. repeat split; reflexivity.
Qed.

(** ** Slot tables *)

Lemma set_file_name_slot (k fn : option string) (slots : list Slot) :
  map slot (set_file_name k fn slots) = map slot slots.
Proof.
  induction slots as [|x rest IH]; cbn; [reflexivity|].
  destruct (slot_is k x); cbn; [reflexivity | now rewrite IH].
Qed.

Lemma set_file_name_label (k fn : option string) (slots : list Slot) :
  map label (set_file_name k fn slots) = map label slots.
Proof.
  induction slots as [|x rest IH]; cbn; [reflexivity|].
  destruct (slot_is k x); cbn; [reflexivity | now rewrite IH].
Qed.

Lemma set_file_name_found (k : string) (fn : option string)
    (slots : list Slot) (x : Slot) :
  find_slot k slots = Some x ->
  find_slot k (set_file_name (Some k) fn slots)
    = Some (mkSlot (slot x) (label x) fn).
Proof.
  unfold find_slot.
  induction slots as [|y rest IH]; cbn; [discriminate|].
  destruct (String.eqb_spec (slot y) k) as [E|E]; cbn.
  - intros [= <-]. now rewrite E, String.eqb_refl.
  - intros H. destruct (String.eqb_spec (slot y) k); [contradiction|].
    now apply IH.
Qed.

Lemma set_file_name_missing (k : string) (fn : option string)
    (slots : list Slot) :
  find_slot k slots = None -> set_file_name (Some k) fn slots = slots.
Proof.
  unfold find_slot.
  induction slots as [|y rest IH]; cbn; [reflexivity|].
  destruct (String.eqb (slot y) k); [discriminate|].
  intros H. now rewrite IH.
Qed.

Lemma set_file_name_other (k k' : string) (fn : option string)
    (slots : list Slot) :
  k' <> k ->
  find_slot k' (set_file_name (Some k) fn slots) = find_slot k' slots.
Proof.
  intros Hne. unfold find_slot.
  induction slots as [|y rest IH]; cbn; [reflexivity|].
  destruct (String.eqb_spec (slot y) k) as [E|E]; cbn.
  - destruct (String.eqb_spec (slot y) k') as [E'|E']; [congruence|].
    reflexivity.
  - destruct (String.eqb (slot y) k'); [reflexivity | exact IH].
Qed.

(** ** [delete_custom_pack] *)





(** ** [remove_sound_slot] *)

Lemma read_slots_own (key : string) (state : MockState) (slots : list Slot) :
  customSlots state !! key = Some slots -> read_slots key state = Own slots.
Proof. unfold read_slots. now intros ->. Qed.

Lemma read_slots_none (key : string) (state : MockState) :
  customSlots state !! key = None ->
  read_slots key state
  = if bool_decide (key ∈ Object_prototype) then Inherited else Undefined.
Proof. unfold read_slots. now intros ->. Qed.

(** The table of [my-custom] once its default slot is removed is the table
    of a pack into which nothing was ever imported. *)
Example remove_default_slot_table :
  customSlots
    (snd (invoke "remove_sound_slot" (args_slot "my-custom" "default")
                 defaultState)) !! "my-custom"
  = Some fresh_slots.
Proof. vm_compute. reflexivity. Qed.

(** X23.  For a pack with a slot table and any slot key, the default one
    included, [remove_sound_slot] keeps every row of the table (same keys
    and labels, same order), sets the display name of the row the key
    addresses to [null], and leaves the other rows, the pack list and the
    active pack id as they were. *)
Theorem remove_sound_slot_clears_name (state : MockState)
    (packId slotKey : string) (slots : list Slot) :
  customSlots state !! packId = Some slots ->
  let r := invoke "remove_sound_slot" (args_slot packId slotKey) state in
  fst r = Resolved VNull /\
  packs (snd r) = packs state /\
  activePackId (snd r) = activePackId state /\
  exists slots',
    customSlots (snd r) !! packId = Some slots' /\
    map slot slots' = map slot slots /\
    map label slots' = map label slots /\
    (forall x, find_slot slotKey slots = Some x ->
               find_slot slotKey slots' = Some (mkSlot (slot x) (label x) None)) /\
    (forall k, k <> slotKey -> find_slot k slots' = find_slot k slots).
Proof.
  intros Hs. cbn. unfold remove_sound_slot; cbn.
  rewrite (read_slots_own _ _ _ Hs); cbn.
  repeat split.
  exists (set_file_name (Some slotKey) None slots). repeat split.
  - apply lookup_insert_eq.
  - apply set_file_name_slot.
  - apply set_file_name_label.
  - intros x Hx. now apply set_file_name_found.
  - intros k Hk. now apply set_file_name_other.
Qed.

(** The theorem at the default state, for the default slot of [my-custom]. *)
Lemma remove_sound_slot_clears_name_witness :
  customSlots defaultState !! "my-custom" = Some my_custom_slots /\
  let r := invoke "remove_sound_slot" (args_slot "my-custom" "default")
                  defaultState in
  fst r = Resolved VNull /\
  packs (snd r) = packs defaultState /\
  activePackId (snd r) = activePackId defaultState /\
  exists slots',
    customSlots (snd r) !! "my-custom" = Some slots' /\
    map slot slots' = map slot my_custom_slots /\
    map label slots' = map label my_custom_slots /\
    (forall x, find_slot "default" my_custom_slots = Some x ->
               find_slot "default" slots' = Some (mkSlot (slot x) (label x) None)) /\
    (forall k, k <> "default" ->
               find_slot k slots' = find_slot k my_custom_slots).
Proof.
  split; [vm_compute; reflexivity|].
  apply (remove_sound_slot_clears_name defaultState "my-custom" "default").
  vm_compute. reflexivity.
Defined.

(** ** [import_sound_file] *)

Example import_exe_sets_name :
  let r := invoke "import_sound_file"
                  (args_import "my-custom" "space" "C:\sounds\huge.exe")
                  defaultState in
  fst r = Resolved VNull /\
  (customSlots (snd r) !! "my-custom" ≫= find_slot "space")
    = Some (mkSlot "space" "Space" (Some "huge.exe")).
Proof. split; vm_compute; reflexivity. Qed.

(** C7, as stated, fails: a path whose extension is none of mp3, wav, ogg
    is not refused; the call resolves and the state is not the one before
    it (the slot now names the file). *)
Lemma import_sound_file_not_refused :
  let filePath := "C:\sounds\huge.exe" in
  let r := invoke "import_sound_file"
                  (args_import "my-custom" "space" filePath) defaultState in
  allowed_extension filePath = false /\
  ~ refused r defaultState /\
  snd r <> defaultState.
Proof.
  split; [vm_compute; reflexivity|]. split.
  - intros [H _]. vm_compute in H. discriminate H.
  - intros H.
    assert (E : customSlots (snd (invoke "import_sound_file"
                 (args_import "my-custom" "space" "C:\sounds\huge.exe")
                 defaultState)) !! "my-custom" ≫= find_slot "space"
              = customSlots defaultState !! "my-custom" ≫= find_slot "space")
      by now rewrite H.
    vm_compute in E. discriminate E.
Qed.

(** C7, amended.  [import_sound_file] checks neither extension nor size
    (no size reaches it): no path is refused for what it is.  For a pack
    id with a slot table the call resolves with [null] and writes at most
    one thing: the row for the slot key, when the table has one, gets the
    last segment of the path as its file name; a table without such a row
    is left as it was.  For a pack id without a table the state is left
    as it was; the call resolves with [null], unless the id is the name of
    a member of [Object.prototype], where the read finds that member,
    [slots.find] throws and the promise is rejected, whatever the path.
    Pack list, active pack id and the tables of other packs are never
    touched. *)
Theorem import_sound_file_records_name (state : MockState)
    (packId slotKey filePath : string) :
  let r := invoke "import_sound_file" (args_import packId slotKey filePath)
                  state in
  packs (snd r) = packs state /\
  activePackId (snd r) = activePackId state /\
  (forall k, k <> packId -> customSlots (snd r) !! k = customSlots state !! k) /\
  match customSlots state !! packId with
  | None =>
      snd r = state /\
      fst r = if bool_decide (packId ∈ Object_prototype)
              then Rejected else Resolved VNull
  | Some slots =>
      fst r = Resolved VNull /\
      exists slots',
        customSlots (snd r) !! packId = Some slots' /\
        map slot slots' = map slot slots /\
        map label slots' = map label slots /\
        (forall x, find_slot slotKey slots = Some x ->
                   find_slot slotKey slots'
                   = Some (mkSlot (slot x) (label x)
                                  (Some (fileName_of filePath)))) /\
        (find_slot slotKey slots = None -> slots' = slots) /\
        (forall k, k <> slotKey -> find_slot k slots' = find_slot k slots)
  end.
Proof.
  cbn. unfold import_sound_file; cbn.
  destruct (customSlots state !! packId) as [slots|] eqn:Hs; cbn.
  - rewrite (read_slots_own _ _ _ Hs); cbn. repeat split.
    + intros k Hk. now apply lookup_insert_ne.
    + exists (set_file_name (Some slotKey) (Some (fileName_of filePath)) slots).
      repeat split.
      * apply lookup_insert_eq.
      * apply set_file_name_slot.
      * apply set_file_name_label.
      * intros x Hx. now apply set_file_name_found.
      * intros Hn. now apply set_file_name_missing.
      * intros k Hk. now apply set_file_name_other.
  - rewrite (read_slots_none _ _ Hs).
    destruct (bool_decide (packId ∈ Object_prototype)); repeat split.
Qed.

(** A pack id that names a member of [Object.prototype]: the promise is
    rejected, for a path with an allowed extension as well. *)
Example import_into_toString :
  invoke "import_sound_file" (args_import "toString" "space" "click.wav")
         defaultState
  = (Rejected, defaultState).
Proof. vm_compute. reflexivity. Qed.

(** ** [create_custom_pack] *)

Lemma splice_in_perm {A} (i : nat) (x : A) (l : list A) :
  splice_in i x l ≡ₚ x :: l.
Proof.
  unfold splice_in. rewrite <- Permutation_middle.
  now rewrite take_drop.
Qed.

Lemma create_custom_pack_packs (args : option Args) (state : MockState) :
  packs (snd (invoke "create_custom_pack" args state))
    ≡ₚ created (prop a_name args) state :: packs state.
Proof.
  cbn. unfold create_custom_pack, created; cbn.
  destruct (findIndex _ (packs state)).
  - apply splice_in_perm.
  - symmetry. apply Permutation_cons_append.
Qed.

(** In a grouped list the test [i > 0 && p.source !== "user"] first
    succeeds at the first bundled pack after the head. *)
Lemma findIndex_from_groups (users bundled : list Pack) (k : nat) :
  Forall (fun p => is_user p = true) users ->
  Forall (fun p => is_user p = false) bundled ->
  findIndex_from (fun p i => (0 <? i)%nat && not_user p) (S k)
                 (users ++ bundled)
  = match bundled with
    | [] => None
    | _ :: _ => Some (S k + length users)%nat
    end.
Proof.
  intros Hu Hb. revert k.
  induction Hu as [|u users Hu1 Hu IH]; intros k; cbn.
  - destruct Hb as [|b bundled Hb1 Hb]; cbn; [reflexivity|].
    unfold is_user in Hb1. apply negb_false_iff in Hb1. rewrite Hb1.
    f_equal. lia.
  - unfold is_user in Hu1. apply negb_true_iff in Hu1. rewrite Hu1.
    rewrite IH. destruct bundled; [reflexivity|]. f_equal. lia.
Qed.

Lemma create_custom_pack_grouped (args : option Args) (state : MockState)
    (d : Pack) (users bundled : list Pack) :
  grouped (packs state) d users bundled ->
  packs (snd (invoke "create_custom_pack" args state))
  = (d :: (users ++ [created (prop a_name args) state]) ++ bundled)%list.
Proof.
  intros (Hl & _ & Hu & Hb).
  change (invoke "create_custom_pack" args state)
    with (create_custom_pack args state).
  unfold create_custom_pack. cbn [snd packs].
  fold (created (prop a_name args) state).
  rewrite Hl.
  change (findIndex ?f (d :: ?l)) with (findIndex_from f 1 l).
  rewrite (findIndex_from_groups users bundled 0 Hu Hb).
  destruct bundled as [|b bundled].
  - now rewrite !app_nil_r.
  - unfold splice_in. cbn [take drop Nat.add].
    rewrite take_app_length, drop_app_length.
    now rewrite <- app_assoc.
Qed.

Example create_empty_name :
  fst (invoke "create_custom_pack" (args_name EmptyString) defaultState)
  = Resolved (VPack (mkPack "new-pack-1" EmptyString "You" EmptyString
                            (Some "user"))).
Proof. reflexivity. Qed.



(** C5, as stated, fails: from the default state, which has no pack
    [test], two calls with the name [Test] both return the id
    [new-pack-1]; the ids are not [test] and [test-2], and the pack list
    then holds one id twice. *)
Lemma create_twice_repeats_id :
  let r1 := invoke "create_custom_pack" (args_name "Test") defaultState in
  let r2 := invoke "create_custom_pack" (args_name "Test") (snd r1) in
  ("test" ∉ map id (packs defaultState)) /\
  (exists p1 p2,
     fst r1 = Resolved (VPack p1) /\ fst r2 = Resolved (VPack p2) /\
     id p1 = "new-pack-1" /\ id p2 = "new-pack-1" /\
     (id p1, id p2) <> ("test", "test-2")) /\
  ~ NoDup (map id (packs (snd r2))).
Proof.
  cbn. split; [|split].
  - rewrite !not_elem_of_cons. repeat split; try discriminate.
    apply not_elem_of_nil.
  - eexists _, _. repeat split. discriminate.
  - intros H. apply NoDup_cons in H as [_ H].
    apply NoDup_cons in H as [_ H]. apply NoDup_cons in H as [H _].
    apply H. left.
Qed.

(** C5, amended.  [create_custom_pack] returns a user pack whose id is the
    [nextCustomId] of the state ([new-pack-1] unless a test sets another),
    whatever the name and whether or not a pack of the list has that id
    already: no slug is made of the name and no suffix is added on
    collision.  The name is the one given, [Untitled] when none is.  The
    ids of the list after the call are those before it and that id; they
    are distinct exactly when they were distinct and that id was not
    among them. *)
Theorem create_custom_pack_uses_next_id (state : MockState)
    (args : option Args) :
  let r := invoke "create_custom_pack" args state in
  exists pack,
    fst r = Resolved (VPack pack) /\
    id pack = nextCustomId state /\
    name pack = nullish (prop a_name args) "Untitled" /\
    source pack = Some "user" /\
    pack ∈ packs (snd r) /\
    map id (packs (snd r)) ≡ₚ nextCustomId state :: map id (packs state) /\
    (NoDup (map id (packs (snd r)))
     <-> NoDup (map id (packs state)) /\
         nextCustomId state ∉ map id (packs state)).
Proof.
  intros r. exists (created (prop a_name args) state).
  pose proof (create_custom_pack_packs args state) as Hp. fold r in Hp.
  pose proof (Permutation_map id Hp) as Hid. cbn [map created id] in Hid.
  split; [reflexivity|]. split; [reflexivity|]. split; [reflexivity|].
  split; [reflexivity|]. split; [rewrite Hp; left|].
  split; [exact Hid|].
  rewrite Hid, NoDup_cons. tauto.
Qed.

(** ** The order of the pack list *)

Example default_packs_ordered : ordered (packs defaultState).
Proof.
  exists (mkPack "default" "HHKB" "KeySound" "Default" None),
         [mkPack "my-custom" "My Custom" "You" EmptyString (Some "user")],
         [mkPack "cherry-mx" "Cherry MX Blue" "KeySound" "Clicky" None].
  repeat split; repeat constructor.
Qed.

(** C6, as stated, fails: after [create_custom_pack] with the name [Aaa]
    the list reads HHKB, My Custom, Aaa, Cherry MX Blue; the user packs are
    not in alphabetical order. *)
Lemma create_breaks_alphabetical_order :
  let r := invoke "create_custom_pack" (args_name "Aaa") defaultState in
  map name (packs (snd r)) = ["HHKB"; "My Custom"; "Aaa"; "Cherry MX Blue"] /\
  fst (invoke "get_sound_packs" None (snd r)) = Resolved (VPacks (packs (snd r))) /\
  ~ ordered (packs (snd r)).
Proof.
  cbn. split; [reflexivity|]. split; [reflexivity|].
  intros (d & users & bundled & (Hl & _ & Hu & Hb) & Hsu & _).
  injection Hl as _ Hl.
  destruct users as [|u1 [|u2 [|u3 [|u4 users]]]]; cbn in Hl.
  - subst bundled. apply Forall_cons in Hb as [Hb1 _]. discriminate Hb1.
  - injection Hl as <- <-. apply Forall_cons in Hb as [Hb1 _].
    discriminate Hb1.
  - injection Hl as <- <- _.
    apply Sorted_inv in Hsu as [_ Hrel]. apply HdRel_inv in Hrel.
    discriminate Hrel.
  - injection Hl as _ _ <- _.
    apply Forall_cons in Hu as [_ Hu]. apply Forall_cons in Hu as [_ Hu].
    apply Forall_cons in Hu as [Hu3 _]. discriminate Hu3.
  - injection Hl as _ _ _ Hl. destruct users; discriminate Hl.
Qed.

(** C6, amended.  The list keeps its three groups: when it reads default
    pack, user packs, bundled packs, then after [create_custom_pack] it
    reads the same default pack, the same user packs followed by the new
    one, and the same bundled packs, and [get_sound_packs] returns it in
    that order.  Within the user group the order is that of creation. *)
Theorem create_custom_pack_keeps_groups (state : MockState)
    (args : option Args) (d : Pack) (users bundled : list Pack) :
  grouped (packs state) d users bundled ->
  let r := invoke "create_custom_pack" args state in
  exists pack,
    fst r = Resolved (VPack pack) /\
    grouped (packs (snd r)) d (users ++ [pack]) bundled /\
    fst (invoke "get_sound_packs" None (snd r))
    = Resolved (VPacks (d :: (users ++ [pack]) ++ bundled)).
Proof.
  intros Hg r. exists (created (prop a_name args) state).
  pose proof (create_custom_pack_grouped args state d users bundled Hg) as Hp.
  fold r in Hp. destruct Hg as (Hl & Hid & Hu & Hb).
  split; [reflexivity|]. split.
  - repeat split; try assumption.
    apply Forall_app. split; [assumption|]. repeat constructor.
  - cbn. f_equal. f_equal. exact Hp.
Qed.

(** The theorem at the default state, whose list is HHKB, My Custom,
    Cherry MX Blue. *)
Lemma create_custom_pack_keeps_groups_witness :
  let d := mkPack "default" "HHKB" "KeySound" "Default" None in
  let users := [mkPack "my-custom" "My Custom" "You" EmptyString (Some "user")] in
  let bundled := [mkPack "cherry-mx" "Cherry MX Blue" "KeySound" "Clicky" None] in
  grouped (packs defaultState) d users bundled /\
  let r := invoke "create_custom_pack" (args_name "Aaa") defaultState in
  exists pack,
    fst r = Resolved (VPack pack) /\
    grouped (packs (snd r)) d (users ++ [pack]) bundled /\
    fst (invoke "get_sound_packs" None (snd r))
    = Resolved (VPacks (d :: (users ++ [pack]) ++ bundled)).
Proof.
  intros d users bundled.
  assert (Hg : grouped (packs defaultState) d users bundled).
  { repeat split; repeat constructor. }
  split; [exact Hg|].
  exact (create_custom_pack_keeps_groups defaultState (args_name "Aaa")
           d users bundled Hg).
Defined.

End MockFacts.

(** * Facts about the WAV writer *)

Module WavFacts.
Import Wav.

Local Open Scope Z_scope.

(** ** Bytes *)

Lemma byte_at_0 (v : Z) : byte_at v 0 = v mod 256.
Proof.
  unfold byte_at. change (8 * Z.of_nat 0) with 0. rewrite Z.shiftr_0_r.
  change 255 with (Z.ones 8). now rewrite Z.land_ones.
Qed.

Lemma byte_at_S (v : Z) (k : nat) : byte_at v (S k) = byte_at (v / 256) k.
Proof.
  unfold byte_at.
  replace (8 * Z.of_nat (S k)) with (8 + 8 * Z.of_nat k) by lia.
  rewrite <- Z.shiftr_shiftr by lia.
  now rewrite (Z.shiftr_div_pow2 v 8) by lia.
Qed.

(** Two little-endian bytes, read as a signed number, give back a signed
    16-bit value. *)
Lemma int16_bytes (z : Z) :
  -32768 <= z <= 32767 ->
  let u := byte_at z 0 + 256 * (byte_at z 1 + 256 * 0) in
  (if u <? 32768 then u else u - 65536) = z.
Proof.
  intros Hz u. subst u. rewrite byte_at_S, !byte_at_0.
  pose proof (Z.div_mod z 256 ltac:(lia)) as H1.
  pose proof (Z.mod_pos_bound z 256 ltac:(lia)) as H2.
  pose proof (Z.div_mod (z / 256) 256 ltac:(lia)) as H3.
  pose proof (Z.mod_pos_bound (z / 256) 256 ltac:(lia)) as H4.
  destruct (Z.ltb_spec (z mod 256 + 256 * ((z / 256) mod 256 + 256 * 0)) 32768);
    lia.
Qed.

(** Four little-endian bytes give back an unsigned 32-bit value. *)
Lemma uint32_bytes (v : Z) :
  0 <= v <= 4294967295 ->
  byte_at v 0 + 256 * (byte_at v 1 + 256 * (byte_at v 2
    + 256 * (byte_at v 3 + 256 * 0))) = v.
Proof.
  intros Hv. rewrite !byte_at_S, !byte_at_0.
  pose proof (Z.div_mod v 256 ltac:(lia)) as H1.
  pose proof (Z.mod_pos_bound v 256 ltac:(lia)) as H2.
  pose proof (Z.div_mod (v / 256) 256 ltac:(lia)) as H3.
  pose proof (Z.mod_pos_bound (v / 256) 256 ltac:(lia)) as H4.
  pose proof (Z.div_mod (v / 256 / 256) 256 ltac:(lia)) as H5.
  pose proof (Z.mod_pos_bound (v / 256 / 256) 256 ltac:(lia)) as H6.
  pose proof (Z.div_mod (v / 256 / 256 / 256) 256 ltac:(lia)) as H7.
  pose proof (Z.mod_pos_bound (v / 256 / 256 / 256) 256 ltac:(lia)) as H8.
  assert (v / 256 / 256 / 256 / 256 = 0); [|lia].
  rewrite !Z.div_div by lia. apply Z.div_small. lia.
Qed.

(** ** Writes into the front part of a buffer *)

Local Open Scope nat_scope.

Lemma store_le_length (v : Z) (n k offset : nat) (buf : list Z) :
  length (store_le v n k offset buf) = length buf.
Proof.
  revert k buf. induction n as [|n IH]; intros k buf; cbn; [reflexivity|].
  now rewrite IH, length_insert.
Qed.

Lemma write_length (text : string) (offset : nat) (buf : list Z) :
  length (write text offset buf) = length buf.
Proof.
  revert offset buf. induction text as [|c text IH]; intros offset buf; cbn;
    [reflexivity|].
  now rewrite IH, length_insert.
Qed.

Lemma store_le_app_l (v : Z) (n k offset : nat) (h t : list Z) :
  offset + k + n <= length h ->
  store_le v n k offset (h ++ t) = (store_le v n k offset h ++ t)%list.
Proof.
  revert k h. induction n as [|n IH]; intros k h Hlen; cbn; [reflexivity|].
  rewrite insert_app_l by lia. apply IH. rewrite length_insert. lia.
Qed.

Lemma write_app_l (text : string) (offset : nat) (h t : list Z) :
  offset + String.length text <= length h ->
  write text offset (h ++ t) = (write text offset h ++ t)%list.
Proof.
  revert offset h. induction text as [|c text IH]; intros offset h Hlen; cbn;
    [reflexivity|].
  cbn in Hlen. rewrite insert_app_l by lia. apply IH.
  rewrite length_insert. lia.
Qed.

Lemma writeUIntLE_app_l (n : nat) (max v : Z) (offset : nat) (h t : list Z) :
  (0 <= v <= max)%Z ->
  offset + n <= length h ->
  writeUIntLE n max v offset (h ++ t)
  = Some (store_le v n 0 offset h ++ t)%list.
Proof.
  intros Hv Hlen. unfold writeUIntLE.
  destruct (Z.ltb_spec max v); [lia|]. destruct (Z.ltb_spec v 0); [lia|].
  cbn [orb]. rewrite length_app.
  destruct (Nat.ltb_spec (length h + length t) (offset + n)); [lia|].
  now rewrite store_le_app_l by lia.
Qed.

(** A value outside the unsigned range makes the writer throw. *)
Lemma writeUIntLE_out_of_range (n : nat) (max v : Z) (offset : nat)
    (buf : list Z) :
  (max < v)%Z -> writeUIntLE n max v offset buf = None.
Proof.
  intros Hv. unfold writeUIntLE.
  destruct (Z.ltb_spec max v); [reflexivity | lia].
Qed.

(** ** The header *)

Lemma alloc_ok (MAX size : Z) :
  (0 <= size <= MAX)%Z -> alloc MAX size = Some (replicate (Z.to_nat size) 0%Z).
Proof.
  intros H. unfold alloc.
  destruct (Z.ltb_spec size 0); [lia|]. destruct (Z.ltb_spec MAX size); [lia|].
  reflexivity.
Qed.

Ltac side :=
  unfold BIT_DEPTH;
  first [ lia
        | repeat first [ rewrite store_le_length | rewrite write_length
                       | rewrite length_replicate ];
          cbn [String.length]; lia ].

Lemma encodeWav_header (MAX : Z) (rnd : Q -> Q) (samples : list jsnum)
    (sampleRate : Z) :
  let dataSize := (Z.of_nat (length samples) * 2)%Z in
  (44 + dataSize <= MAX)%Z ->
  (36 + dataSize <= 4294967295)%Z ->
  (0 <= sampleRate)%Z -> (sampleRate * 1 * 2 <= 4294967295)%Z ->
  encodeWav MAX rnd samples sampleRate
  = write_samples rnd samples 0
      (header dataSize sampleRate ++ replicate (2 * length samples) 0%Z).
Proof.
  intros dataSize Hmax Hriff Hrate Hbyte. unfold encodeWav. cbv zeta.
  change (BIT_DEPTH / 8)%Z with 2%Z. fold dataSize.
  rewrite alloc_ok by lia. cbn [mbind option_bind].
  replace (Z.to_nat (44 + dataSize)) with (44 + 2 * length samples)%nat by lia.
  rewrite replicate_add.
  rewrite write_app_l by side.
  unfold writeUInt32LE, writeUInt16LE.
  rewrite writeUIntLE_app_l by side. cbn [mbind option_bind].
  rewrite !write_app_l by side.
  rewrite writeUIntLE_app_l by side. cbn [mbind option_bind].
  rewrite writeUIntLE_app_l by side. cbn [mbind option_bind].
  rewrite writeUIntLE_app_l by side. cbn [mbind option_bind].
  rewrite writeUIntLE_app_l by side. cbn [mbind option_bind].
  rewrite writeUIntLE_app_l by side. cbn [mbind option_bind].
  rewrite writeUIntLE_app_l by side. cbn [mbind option_bind].
  rewrite writeUIntLE_app_l by side. cbn [mbind option_bind].
  rewrite write_app_l by side.
  rewrite writeUIntLE_app_l by side. cbn [mbind option_bind].
  reflexivity.
Qed.

(** ** The sample loop *)

Lemma Qtrunc_Z (z : Z) : Qtrunc (inject_Z z) = z.
Proof.
  unfold Qtrunc. destruct (Qle_bool 0 (inject_Z z));
    [apply Qfloor_Z | apply Qceiling_Z].
Qed.

Lemma writeInt16LE_int16 (z : Z) (offset : nat) (buf : list Z) :
  (-32768 <= z <= 32767)%Z ->
  offset + 2 <= length buf ->
  writeInt16LE (Fin (inject_Z z)) offset buf
  = Some (store_le z 2 0 offset buf).
Proof.
  intros Hz Hlen. unfold writeInt16LE, Qltb.
  assert (H1 : Qle_bool (inject_Z z) (32767 # 1) = true).
  { apply Qle_bool_iff. change (32767 # 1) with (inject_Z 32767).
    rewrite <- Zle_Qle. lia. }
  assert (H2 : Qle_bool (-32768 # 1) (inject_Z z) = true).
  { apply Qle_bool_iff. change (-32768 # 1) with (inject_Z (-32768)).
    rewrite <- Zle_Qle. lia. }
  rewrite H1, H2. cbn [negb orb].
  destruct (Nat.ltb_spec (length buf) (offset + 2)); [lia|].
  now rewrite Qtrunc_Z.
Qed.

Lemma writeInt16LE_NaN (offset : nat) (buf : list Z) :
  offset + 2 <= length buf ->
  writeInt16LE NaN offset buf = Some (store_le 0 2 0 offset buf).
Proof.
  intros Hlen. unfold writeInt16LE.
  destruct (Nat.ltb_spec (length buf) (offset + 2)); [lia | reflexivity].
Qed.

(** Storing two bytes right after [pre], over two bytes [a], [b]. *)
Lemma store_le_2_at_end (z : Z) (pre : list Z) (a b : Z) (t : list Z) :
  store_le z 2 0 (length pre) (pre ++ a :: b :: t)
  = (pre ++ [byte_at z 0; byte_at z 1] ++ t)%list.
Proof.
  cbn [store_le].
  replace (length pre + 0) with (length pre + 0) by reflexivity.
  rewrite (insert_app_r pre (a :: b :: t) 0).
  rewrite (insert_app_r pre _ 1). reflexivity.
Qed.

Lemma Qle_bool_false (x y : Q) : Qle_bool x y = false -> (y < x)%Q.
Proof.
  intros H. apply Qnot_le_lt. intros Hle.
  apply Qle_bool_iff in Hle. congruence.
Qed.

Lemma clamped_NaN : clamped NaN = NaN.
Proof. reflexivity. Qed.

Lemma clamped_range (x : jsnum) : x <> NaN -> in_unit_range (clamped x).
Proof.
  intros Hx. unfold in_unit_range, clamped.
  destruct x as [q| | |]; [|contradiction| |]; cbn.
  - destruct (Qle_bool 1 q) eqn:E1; cbn.
    + exists 1%Q. split; [reflexivity | split; lra].
    + apply Qle_bool_false in E1.
      destruct (Qle_bool (-1 # 1) q) eqn:E2; cbn.
      * apply Qle_bool_iff in E2. exists q. split; [reflexivity | split; lra].
      * exists (-1 # 1)%Q. split; [reflexivity | split; lra].
  - exists 1%Q. split; [reflexivity | split; lra].
  - exists (-1 # 1)%Q. split; [reflexivity | split; lra].
Qed.

Section Rounding.

Variable rnd : Q -> Q.
Hypothesis rnd_mono : forall x y : Q, (x <= y)%Q -> (rnd x <= rnd y)%Q.
Hypothesis rnd_int :
  forall z : Z, (Z.abs z <= 2 ^ 53)%Z -> (rnd (inject_Z z) == inject_Z z)%Q.

Lemma scaled_range (q : Q) :
  (-1 # 1 <= q)%Q -> (q <= 1)%Q ->
  exists v, scaled rnd (Fin q) = Fin v /\ (-32768 # 1 <= v)%Q /\ (v <= 32767 # 1)%Q.
Proof.
  intros Hlo Hhi. unfold scaled, js_ltb, Qltb, js_scale.
  pose proof (rnd_int 0 ltac:(lia)) as R0.
  pose proof (rnd_int 32767 ltac:(lia)) as Rp.
  pose proof (rnd_int (-32768) ltac:(lia)) as Rn.
  change (inject_Z 0) with 0%Q in R0.
  change (inject_Z 32767) with (32767 # 1)%Q in Rp.
  change (inject_Z (-32768)) with (-32768 # 1)%Q in Rn.
  destruct (Qle_bool 0 q) eqn:E; cbn [negb].
  - apply Qle_bool_iff in E. eexists; split; [reflexivity|].
    pose proof (rnd_mono 0 (q * (32767 # 1)) ltac:(lra)) as H1.
    pose proof (rnd_mono (q * (32767 # 1)) (32767 # 1) ltac:(lra)) as H2.
    split; lra.
  - apply Qle_bool_false in E. eexists; split; [reflexivity|].
    pose proof (rnd_mono (-32768 # 1) (q * (32768 # 1)) ltac:(lra)) as H1.
    pose proof (rnd_mono (q * (32768 # 1)) 0 ltac:(lra)) as H2.
    split; lra.
Qed.

Lemma js_round_range (v : Q) :
  (-32768 # 1 <= v)%Q -> (v <= 32767 # 1)%Q -> is_int16 (js_round (Fin v)).
Proof.
  intros Hlo Hhi. exists (Qfloor (v + (1 # 2))). split; [reflexivity|]. split.
  - rewrite <- (Qfloor_Z (-32768)). apply Qfloor_resp_le.
    change (inject_Z (-32768)) with (-32768 # 1)%Q. lra.
  - change 32767%Z with (Qfloor (65535 # 2)). apply Qfloor_resp_le. lra.
Qed.

Lemma int16_arg_NaN : int16_arg rnd NaN = NaN.
Proof. reflexivity. Qed.

Lemma int16_arg_range (x : jsnum) : x <> NaN -> is_int16 (int16_arg rnd x).
Proof.
  intros Hx. unfold int16_arg.
  destruct (clamped_range x Hx) as (q & -> & Hlo & Hhi).
  destruct (scaled_range q Hlo Hhi) as (v & -> & Hvlo & Hvhi).
  now apply js_round_range.
Qed.

Lemma write_samples_eq (samples : list jsnum) :
  forall (i : nat) (pre : list Z),
    length pre = 44 + i * 2 ->
    write_samples rnd samples i (pre ++ replicate (2 * length samples) 0%Z)
    = Some (pre ++ flat_map (fun x => sample_bytes (int16_arg rnd x)) samples)%list.
Proof.
  induction samples as [|x rest IH]; intros i pre Hlen.
  - reflexivity.
  - cbn [write_samples flat_map].
    replace (2 * length (x :: rest)) with (S (S (2 * length rest)))
      by (cbn [length]; lia).
    cbn [replicate]. rewrite <- Hlen.
    assert (Hw : writeInt16LE (int16_arg rnd x) (length pre)
                   (pre ++ 0%Z :: 0%Z :: replicate (2 * length rest) 0%Z)
                 = Some ((pre ++ sample_bytes (int16_arg rnd x))
                           ++ replicate (2 * length rest) 0%Z)%list).
    { destruct x as [q| | |].
      2:{ rewrite int16_arg_NaN, writeInt16LE_NaN
            by (rewrite length_app; cbn [length]; lia).
          rewrite store_le_2_at_end. now rewrite <- app_assoc. }
      all: match goal with
           | |- context [int16_arg rnd ?y] =>
               destruct (int16_arg_range y ltac:(discriminate))
                 as (z & -> & Hz)
           end;
        rewrite writeInt16LE_int16
          by (try assumption; rewrite length_app; cbn [length]; lia);
        rewrite store_le_2_at_end; cbn [sample_bytes];
        rewrite Qtrunc_Z; now rewrite <- app_assoc. }
    rewrite Hw. cbn [mbind option_bind].
    rewrite (IH (S i)).
    + now rewrite <- app_assoc.
    + rewrite length_app.
      assert (length (sample_bytes (int16_arg rnd x)) = 2)
        by (destruct (int16_arg rnd x); reflexivity).
      lia.
Qed.

End Rounding.

Lemma flat_map_pairs_lookup {A B} (f : A -> list B) (l : list A)
    (i k : nat) (x : A) :
  (forall y, length (f y) = 2) ->
  l !! i = Some x -> k < 2 ->
  flat_map f l !! (2 * i + k) = f x !! k.
Proof.
  intros Hf. revert i. induction l as [|a l IH]; intros i Hl Hk.
  - discriminate Hl.
  - cbn [flat_map]. destruct i as [|i].
    + injection Hl as ->. rewrite lookup_app_l by (rewrite Hf; lia).
      reflexivity.
    + cbn in Hl. rewrite lookup_app_r by (rewrite Hf; lia).
      rewrite Hf. replace (2 * S i + k - 2) with (2 * i + k) by lia.
      now apply IH.
Qed.

Lemma sample_bytes_length (v : jsnum) : length (sample_bytes v) = 2.
Proof. destruct v; reflexivity. Qed.

Lemma flat_map_pairs_length {A B} (f : A -> list B) (l : list A) :
  (forall y, length (f y) = 2) -> length (flat_map f l) = 2 * length l.
Proof.
  intros Hf. induction l as [|a l IH]; [reflexivity|].
  cbn [flat_map length]. rewrite length_app, Hf, IH. lia.
Qed.

(** C10, amended.  For a sample array of length [n] with [44 + 2n] within
    the largest buffer length and [36 + 2n] at most [2^32 - 1], and for a
    binary64 rounding that is monotone and exact on integers, [encodeWav]
    returns a buffer of [44 + 2n] bytes whose field at offset 4 reads
    [36 + 2n] and whose field at offset 40 reads [2n].  Every sample that
    is not NaN is clamped into [-1, 1], reaches [writeInt16LE] as an
    integer of [-32768, 32767] and is read back as that integer at offset
    [44 + 2i]; a NaN sample reaches [writeInt16LE] as NaN and is stored as
    zero. *)
Theorem encodeWav_layout (MAX_LENGTH : Z) (rnd : Q -> Q)
    (samples : list jsnum) :
  (forall x y : Q, (x <= y)%Q -> (rnd x <= rnd y)%Q) ->
  (forall z : Z, (Z.abs z <= 2 ^ 53)%Z -> (rnd (inject_Z z) == inject_Z z)%Q) ->
  (44 + 2 * Z.of_nat (length samples) <= MAX_LENGTH)%Z ->
  (36 + 2 * Z.of_nat (length samples) <= 4294967295)%Z ->
  encodes_as_amended MAX_LENGTH rnd samples.
Proof.
  intros Hmono Hexact Hmax Hriff. unfold encodes_as_amended. cbv zeta.
  set (body := flat_map (fun x => sample_bytes (int16_arg rnd x)) samples).
  set (dataSize := (Z.of_nat (length samples) * 2)%Z).
  assert (Hbody : length body = 2 * length samples)
    by (apply flat_map_pairs_length; intros y; apply sample_bytes_length).
  assert (Hrun : encodeWav MAX_LENGTH rnd samples SAMPLE_RATE
                 = Some (header dataSize SAMPLE_RATE ++ body)%list).
  { rewrite encodeWav_header by (unfold SAMPLE_RATE; lia).
    now apply write_samples_eq. }
  exists (header dataSize SAMPLE_RATE ++ body)%list.
  split; [exact Hrun|].
  assert (Hhead : length (header dataSize SAMPLE_RATE) = 44) by reflexivity.
  split; [rewrite length_app, Hhead, Hbody; lia|].
  split; [|split].
  - unfold readUInt32LE, readUIntLE.
    rewrite !lookup_app_l by (rewrite Hhead; lia).
    cbn [header le32 le16 app lookup list_lookup mbind option_bind].
    f_equal. rewrite uint32_bytes by (unfold dataSize; lia).
    unfold dataSize; lia.
  - unfold readUInt32LE, readUIntLE.
    rewrite !lookup_app_l by (rewrite Hhead; lia).
    cbn [header le32 le16 app lookup list_lookup mbind option_bind].
    f_equal. rewrite uint32_bytes by (unfold dataSize; lia).
    unfold dataSize; lia.
  - intros i x Hx.
    assert (Hb : forall k, k < 2 ->
              (header dataSize SAMPLE_RATE ++ body)%list !! (44 + 2 * i + k)
              = sample_bytes (int16_arg rnd x) !! k).
    { intros k Hk. rewrite lookup_app_r by (rewrite Hhead; lia).
      rewrite Hhead. replace (44 + 2 * i + k - 44) with (2 * i + k) by lia.
      apply (flat_map_pairs_lookup
               (fun y => sample_bytes (int16_arg rnd y)) samples i k x);
        [intros y; apply sample_bytes_length | exact Hx | exact Hk]. }
    pose proof (Hb 0 ltac:(lia)) as Hb0. pose proof (Hb 1 ltac:(lia)) as Hb1.
    rewrite Nat.add_0_r in Hb0.
    replace (44 + 2 * i + 1) with (S (44 + 2 * i)) in Hb1 by lia.
    split.
    + intros Hn. split; [now apply clamped_range|].
      destruct (int16_arg_range rnd Hmono Hexact x Hn) as (z & Ez & Hz).
      exists z. split; [exact Ez|]. split; [exact Hz|].
      unfold readInt16LE, readUIntLE. rewrite Hb0, Hb1, Ez.
      cbn [sample_bytes lookup list_lookup mbind option_bind].
      rewrite Qtrunc_Z. f_equal. now apply int16_bytes.
    + intros ->. split; [reflexivity|].
      unfold readInt16LE, readUIntLE. rewrite Hb0, Hb1.
      reflexivity.
Qed.

Lemma encodeWav_too_long (MAX_LENGTH : Z) (rnd : Q -> Q)
    (samples : list jsnum) (sampleRate : Z) :
  (4294967295 < 36 + 2 * Z.of_nat (length samples))%Z ->
  encodeWav MAX_LENGTH rnd samples sampleRate = None.
Proof.
  intros Hlong. unfold encodeWav. cbv zeta.
  change (BIT_DEPTH / 8)%Z with 2%Z.
  destruct (alloc MAX_LENGTH _) as [buffer|]; [|reflexivity].
  cbn [mbind option_bind]. unfold writeUInt32LE.
  rewrite writeUIntLE_out_of_range by lia. reflexivity.
Qed.

(** A run on three samples: NaN is stored as [00 00], one half as
    [16384] and [-3], clamped to [-1], as [-32768]. *)
Example encodeWav_NaN_bytes :
  encodeWav MAX_LENGTH_node22 rnd_exact [NaN; Fin (1 # 2); Fin (-3 # 1)] SAMPLE_RATE
  = Some ([82; 73; 70; 70; 42; 0; 0; 0; 87; 65; 86; 69;
           102; 109; 116; 32; 16; 0; 0; 0; 1; 0; 1; 0;
           68; 172; 0; 0; 136; 88; 1; 0; 2; 0; 16; 0;
           100; 97; 116; 97; 6; 0; 0; 0;
           0; 0; 0; 64; 0; 128])%Z.
Proof. vm_compute. reflexivity. Qed.

(** C10, as stated, fails on two inputs: for the one-sample array [NaN]
    the sample is not clamped into [-1, 1] and the argument of
    [writeInt16LE] is NaN, no 16-bit integer; for [new Array(2147483630)],
    whose holes read as NaN, the RIFF size [36 + 2n] exceeds [2^32 - 1],
    [writeUInt32LE] throws and no buffer is returned. *)
Lemma encodeWav_not_as_stated :
  ~ encodes_as_stated MAX_LENGTH_node22 rnd_exact [NaN] /\
  ~ encodes_as_stated MAX_LENGTH_node22 rnd_exact
      (replicate (Z.to_nat 2147483630) NaN).
Proof.
  split.
  - intros (buffer & _ & _ & _ & _ & H).
    destruct (H 0 NaN eq_refl) as [(q & Hq & _) _]. discriminate Hq.
  - intros (buffer & Hrun & _).
    rewrite encodeWav_too_long in Hrun; [discriminate Hrun|].
    rewrite length_replicate. lia.
Qed.

(** The theorem for four samples, under exact arithmetic and the buffer
    limit of Node 22. *)
Lemma encodeWav_layout_witness :
  let samples := [Fin (1 # 2); Fin (-3 # 1); NaN; PInf] in
  (forall x y : Q, (x <= y)%Q -> (rnd_exact x <= rnd_exact y)%Q) /\
  (forall z : Z, (Z.abs z <= 2 ^ 53)%Z ->
                 (rnd_exact (inject_Z z) == inject_Z z)%Q) /\
  (44 + 2 * Z.of_nat (length samples) <= MAX_LENGTH_node22)%Z /\
  (36 + 2 * Z.of_nat (length samples) <= 4294967295)%Z /\
  encodes_as_amended MAX_LENGTH_node22 rnd_exact samples.
Proof.
  intros samples.
  assert (H1 : forall x y : Q, (x <= y)%Q -> (rnd_exact x <= rnd_exact y)%Q)
    by (intros x y H; exact H).
  assert (H2 : forall z : Z, (Z.abs z <= 2 ^ 53)%Z ->
                 (rnd_exact (inject_Z z) == inject_Z z)%Q)
    by (intros z _; reflexivity).
  assert (H3 : (44 + 2 * Z.of_nat (length samples) <= MAX_LENGTH_node22)%Z)
    by (vm_compute; discriminate).
  assert (H4 : (36 + 2 * Z.of_nat (length samples) <= 4294967295)%Z)
    by (vm_compute; discriminate).
  repeat split; try assumption.
  exact (encodeWav_layout MAX_LENGTH_node22 rnd_exact samples H1 H2 H3 H4).
Defined.

End WavFacts.

(** * Facts about the resolver and the volume stage *)

Module ResolverFacts.
Import Resolver.

(** The example of the specification: [key_overrides.Space = A] and a
    category [space] covering [Space] with [B]. *)
Example space_pack_resolves_to_A :
  let pack :=
    {| defaults := mkDefaults "sounds/keydown.wav" (8 # 10);
       keyOverrides := {[ "Space" := mkKeyOverride (Some "A") None ]};
       categoryOverrides :=
         [("space", mkCategoryOverride ["Space"] (Some "B") (Some (1 # 2)))] |} in
  resolve (fun _ => true) pack "Space" = Sound "A" (8 # 10) /\
  resolve (fun _ => true) pack "KeyA" = Sound "sounds/keydown.wav" (8 # 10).
Proof. split; vm_compute; reflexivity. Qed.

(** C1.  When [keyOverrides] has an entry for the key, [resolve] takes
    asset and volume from that entry, each falling back to the default of
    its field when unset, and the category overrides play no part: the
    result is the same for every list of categories, those covering the
    key included. *)
Theorem key_override_wins (loaded : string -> bool) (pack : SoundPack)
    (keyId : string) (o : KeyOverride) :
  keyOverrides pack !! keyId = Some o ->
  let asset := default (assetRef (defaults pack)) (key_assetRef o) in
  let vol := default (volume (defaults pack)) (key_volume o) in
  resolve_tiers pack keyId = (asset, vol) /\
  resolve loaded pack keyId = (if loaded asset then Sound asset vol else Silent) /\
  forall cats : list (string * CategoryOverride),
    resolve loaded (with_categories pack cats) keyId = resolve loaded pack keyId.
Proof.
  intros Ho asset vol.
  assert (Ht : forall cats, resolve_tiers (with_categories pack cats) keyId
                            = (asset, vol)).
  { intros cats. unfold resolve_tiers. cbn [with_categories keyOverrides defaults].
    now rewrite Ho. }
  assert (Hp : resolve_tiers pack keyId = (asset, vol)).
  { unfold resolve_tiers. now rewrite Ho. }
  split; [exact Hp|]. split.
  - unfold resolve. now rewrite Hp.
  - intros cats. unfold resolve. now rewrite Ht, Hp.
Qed.

(** The theorem at the pack of the example. *)
Lemma key_override_wins_witness :
  let pack :=
    {| defaults := mkDefaults "sounds/keydown.wav" (8 # 10);
       keyOverrides := {[ "Space" := mkKeyOverride (Some "A") None ]};
       categoryOverrides :=
         [("space", mkCategoryOverride ["Space"] (Some "B") (Some (1 # 2)))] |} in
  let loaded := fun _ : string => true in
  keyOverrides pack !! "Space" = Some (mkKeyOverride (Some "A") None) /\
  resolve_tiers pack "Space" = ("A", 8 # 10) /\
  resolve loaded pack "Space" = Sound "A" (8 # 10) /\
  forall cats : list (string * CategoryOverride),
    resolve loaded (with_categories pack cats) "Space"
    = resolve loaded pack "Space".
Proof.
  intros pack loaded.
  assert (Ho : keyOverrides pack !! "Space"
               = Some (mkKeyOverride (Some "A") None))
    by (vm_compute; reflexivity).
  split; [exact Ho|].
  exact (key_override_wins loaded pack "Space" _ Ho).
Defined.

(** C2.  The composed volume is the product of master and resolved volume
    clamped into [0, 1]; one half and four fifths give two fifths; a master
    volume of zero gives the volume zero, which is played as silence,
    whatever the resolved volume and asset. *)
Theorem volume_compositing (masterVolume resolvedVolume : Q) (asset : string) :
  (finalVolume masterVolume resolvedVolume
     == Qmax 0 (Qmin 1 (masterVolume * resolvedVolume)))%Q /\
  (0 <= finalVolume masterVolume resolvedVolume)%Q /\
  (finalVolume masterVolume resolvedVolume <= 1)%Q /\
  (finalVolume (1 # 2) (8 # 10) == 4 # 10)%Q /\
  (finalVolume 0 resolvedVolume == 0)%Q /\
  gain_of (finalVolume 0 resolvedVolume) = Floor /\
  composite 0 (Sound asset resolvedVolume) = Silent.
Proof.
  assert (Hc : forall x : Q,
             (clamp x 0 1 == Qmax 0 (Qmin 1 x))%Q /\
             (0 <= clamp x 0 1)%Q /\ (clamp x 0 1 <= 1)%Q).
  { intros x. unfold clamp.
    destruct (Qle_bool x 0) eqn:E0.
    - apply Qle_bool_iff in E0. split; [|split; lra].
      rewrite (Q.min_r 1 x) by lra. now rewrite Q.max_l by lra.
    - apply WavFacts.Qle_bool_false in E0.
      destruct (Qle_bool 1 x) eqn:E1.
      + apply Qle_bool_iff in E1. split; [|split; lra].
        rewrite (Q.min_l 1 x) by lra. now rewrite Q.max_r by lra.
      + apply WavFacts.Qle_bool_false in E1. split; [|split; lra].
        rewrite (Q.min_r 1 x) by lra. now rewrite Q.max_r by lra. }
  assert (Hz : finalVolume 0 resolvedVolume = 0%Q).
  { unfold finalVolume, clamp.
    assert (E : Qle_bool (0 * resolvedVolume) 0 = true)
      by (apply Qle_bool_iff; lra).
    now rewrite E. }
  unfold finalVolume at 1 2 3.
  destruct (Hc (masterVolume * resolvedVolume)%Q) as (H1 & H2 & H3).
  split; [exact H1|]. split; [exact H2|]. split; [exact H3|].
  split; [vm_compute; reflexivity|].
  split; [now rewrite Hz|].
  split; [now rewrite Hz|].
  unfold composite. now rewrite Hz.
Qed.

End ResolverFacts.

(** * Facts about slot removal in the manifest *)

Module LifecycleFacts.
Import Resolver Lifecycle.





(** A user pack with a key override and a category: removing the default
    slot leaves the placeholder, removing the key slot [KeyA] leaves no
    override and [KeyA] then plays the default sound. *)
Example remove_slots_of_a_pack :
  let pack :=
    {| defaults := mkDefaults "sounds/default.wav" (8 # 10);
       keyOverrides := {[ "KeyA" := mkKeyOverride (Some "sounds/a.wav") None ]};
       categoryOverrides :=
         [("space", mkCategoryOverride ["Space"] (Some "sounds/space.wav")
                                       None)] |} in
  held (removeSlot "sounds/silence.wav" pack "default") "default"
    = Asset "sounds/silence.wav" /\
  resolve (fun _ => true) (removeSlot "sounds/silence.wav" pack "default")
          "KeyB"
    = Sound "sounds/silence.wav" (8 # 10) /\
  held (removeSlot "sounds/silence.wav" pack "KeyA") "KeyA" = NoOverride /\
  resolve (fun _ => true) (removeSlot "sounds/silence.wav" pack "KeyA") "KeyA"
    = Sound "sounds/default.wav" (8 # 10) /\
  held (removeSlot "sounds/silence.wav" pack "space") "space" = NoOverride /\
  resolve (fun _ => true) (removeSlot "sounds/silence.wav" pack "space")
          "Space"
    = Sound "sounds/default.wav" (8 # 10).
Proof. repeat split; vm_compute; reflexivity. Qed.

End LifecycleFacts.

(** * Further facts about the mocked backend *)

Module MockMore.
Import Mock Listing Session MockFacts.

(** The dispatch of [invoke], one case per command. *)
Lemma invoke_cases (cmd : string) (args : option Args) (state : MockState) :
  (cmd = "get_enabled" /\ invoke cmd args state = (Resolved (VBool (enabled state)), state)) \/
  (cmd = "get_volume" /\ invoke cmd args state = (Resolved (VNum (volume state)), state)) \/
  (cmd = "get_sound_packs" /\ invoke cmd args state = (Resolved (VPacks (packs state)), state)) \/
  (cmd = "get_active_pack_id" /\ invoke cmd args state = (Resolved (VStr (activePackId state)), state)) \/
  (cmd = "toggle_sound" /\ invoke cmd args state = toggle_sound state) \/
  (cmd = "set_volume" /\ invoke cmd args state = set_volume args state) \/
  (cmd = "set_active_pack" /\ invoke cmd args state = set_active_pack args state) \/
  (cmd = "play_sound" /\ invoke cmd args state = (Resolved VNull, state)) \/
  (cmd = "create_custom_pack" /\ invoke cmd args state = create_custom_pack args state) \/
  (cmd = "import_sound_file" /\ invoke cmd args state = import_sound_file args state) \/
  (cmd = "get_custom_pack_slots" /\ invoke cmd args state = get_custom_pack_slots args state) \/
  (cmd = "remove_sound_slot" /\ invoke cmd args state = remove_sound_slot args state) \/
  (cmd = "delete_custom_pack" /\ invoke cmd args state = delete_custom_pack args state) \/
  ((cmd ∉ handled) /\ invoke cmd args state = (Resolved VNull, state)).
Proof.
  unfold invoke.
  repeat match goal with
         | |- context [String.eqb cmd ?c] =>
             destruct (String.eqb_spec cmd c) as [->|?];
             [ tauto | ]
         end.
  repeat right. split; [|reflexivity].
  unfold handled. rewrite !not_elem_of_cons. repeat split; try assumption.
  apply not_elem_of_nil.
Qed.

Lemma get_custom_pack_slots_state (args : option Args) (state : MockState) :
  snd (get_custom_pack_slots args state) = state.
Proof.
  unfold get_custom_pack_slots. destruct (read_slots _ _); reflexivity.
Qed.

Ltac by_cases cmd args state :=
  destruct (invoke_cases cmd args state)
    as [[? E]|[[? E]|[[? E]|[[? E]|[[? E]|[[? E]|[[? E]|[[? E]|[[? E]|[[? E]
       |[[? E]|[[? E]|[[? E]|[? E]]]]]]]]]]]]]];
  rewrite E; clear E; rewrite ?get_custom_pack_slots_state.

Lemma import_sound_file_next (args : option Args) (state : MockState) :
  nextCustomId (snd (import_sound_file args state)) = nextCustomId state.
Proof.
  unfold import_sound_file. destruct (prop a_filePath args); [|reflexivity].
  destruct (read_slots _ _); reflexivity.
Qed.

Lemma remove_sound_slot_next (args : option Args) (state : MockState) :
  nextCustomId (snd (remove_sound_slot args state)) = nextCustomId state.
Proof.
  unfold remove_sound_slot. destruct (read_slots _ _); reflexivity.
Qed.

Lemma invoke_nextCustomId (cmd : string) (args : option Args) (state : MockState) :
  nextCustomId (snd (invoke cmd args state)) = nextCustomId state.
Proof.
  by_cases cmd args state; try reflexivity.
  - apply import_sound_file_next.
  - apply remove_sound_slot_next.
Qed.

Lemma run_nextCustomId (calls : list (string * option Args)) (state : MockState) :
  nextCustomId (run calls state) = nextCustomId state.
Proof.
  revert state. induction calls as [|[cmd args] calls IH]; intros state;
    [reflexivity|].
  cbn [run]. rewrite IH. apply invoke_nextCustomId.
Qed.

(** X2.  No command writes [nextCustomId]: after any sequence of calls it
    is what it was, so every [create_custom_pack] of a session returns the
    same id. *)
Theorem create_id_is_constant (calls : list (string * option Args))
    (args : option Args) (state : MockState) :
  exists pack,
    fst (invoke "create_custom_pack" args (run calls state)) = Resolved (VPack pack) /\
    id pack = nextCustomId state /\
    nextCustomId (run calls state) = nextCustomId state.
Proof.
  exists (created (prop a_name args) (run calls state)).
  split; [reflexivity|]. split; apply run_nextCustomId.
Qed.


(** ** Commands that do not write *)

(** X1.  A command that is none of the seven writing ones leaves the
    state as it was, whatever its arguments; a command no [case] exists
    for also resolves with [null]. *)
Theorem reading_keeps_state (cmd : string) (args : option Args)
    (state : MockState) :
  cmd ∉ mutating ->
  snd (invoke cmd args state) = state /\
  (cmd ∉ handled -> fst (invoke cmd args state) = Resolved VNull).
Proof.
  intros Hm. unfold mutating in Hm. rewrite !not_elem_of_cons in Hm.
  destruct Hm as (H1 & H2 & H3 & H4 & H5 & H6 & H7 & _).
  by_cases cmd args state; subst; try contradiction;
    (split; [reflexivity|]); intros Hh; try reflexivity;
    exfalso; apply Hh; unfold handled;
    rewrite !elem_of_cons; tauto.
Qed.

(** The theorem for [get_custom_pack_slots] at the default state. *)
Lemma reading_keeps_state_witness :
  ("get_custom_pack_slots" ∉ mutating) /\
  snd (invoke "get_custom_pack_slots" (args_pack "my-custom") defaultState)
    = defaultState /\
  ("get_custom_pack_slots" ∉ handled ->
   fst (invoke "get_custom_pack_slots" (args_pack "my-custom") defaultState)
   = Resolved VNull).
Proof.
  assert (H : "get_custom_pack_slots" ∉ mutating).
  { unfold mutating. rewrite !not_elem_of_cons.
    repeat split; try discriminate. apply not_elem_of_nil. }
  split; [exact H|].
  exact (reading_keeps_state "get_custom_pack_slots" (args_pack "my-custom")
           defaultState H).
Defined.

(** ** What each field is written by *)

Lemma invoke_enabled (cmd : string) (args : option Args) (state : MockState) :
  enabled (snd (invoke cmd args state))
  = if String.eqb cmd "toggle_sound" then negb (enabled state)
    else enabled state.
Proof.
  by_cases cmd args state; subst; try reflexivity.
  - unfold import_sound_file. destruct (prop a_filePath args); [|reflexivity].
    destruct (read_slots _ _); reflexivity.
  - unfold remove_sound_slot. destruct (read_slots _ _); reflexivity.
  - destruct (String.eqb_spec cmd "toggle_sound") as [->|]; [|reflexivity].
    exfalso. match goal with H : _ ∉ handled |- _ => apply H end.
    unfold handled. rewrite !elem_of_cons. tauto.
Qed.

(** X3.  After any sequence of calls [enabled] is its first value, negated
    when the sequence holds an odd number of [toggle_sound] calls: no other
    command writes it. *)
Theorem enabled_is_toggle_parity (calls : list (string * option Args))
    (state : MockState) :
  enabled (run calls state)
  = xorb (enabled state)
         (Nat.odd (length (calls_of "toggle_sound" calls))).
Proof.
  revert state. induction calls as [|[cmd args] calls IH]; intros state.
  - cbn. now rewrite xorb_false_r.
  - cbn [run calls_of List.filter fst]. rewrite IH, invoke_enabled.
    fold (calls_of "toggle_sound" calls).
    destruct (String.eqb cmd "toggle_sound"); [|reflexivity].
    cbn [length]. rewrite Nat.odd_succ, <- Nat.negb_odd.
    destruct (enabled state), (Nat.odd _); reflexivity.
Qed.

Lemma invoke_volume (cmd : string) (args : option Args) (state : MockState) :
  cmd <> "set_volume" ->
  volume (snd (invoke cmd args state)) = volume state.
Proof.
  intros Hc. by_cases cmd args state; subst; try reflexivity;
    try contradiction.
  - unfold import_sound_file. destruct (prop a_filePath args); [|reflexivity].
    destruct (read_slots _ _); reflexivity.
  - unfold remove_sound_slot. destruct (read_slots _ _); reflexivity.
Qed.

Lemma invoke_activePackId (cmd : string) (args : option Args)
    (state : MockState) :
  cmd <> "set_active_pack" ->
  activePackId (snd (invoke cmd args state)) = activePackId state.
Proof.
  intros Hc. by_cases cmd args state; subst; try reflexivity;
    try contradiction.
  - unfold import_sound_file. destruct (prop a_filePath args); [|reflexivity].
    destruct (read_slots _ _); reflexivity.
  - unfold remove_sound_slot. destruct (read_slots _ _); reflexivity.
Qed.

Lemma calls_of_nil_cons (c cmd : string) (args : option Args)
    (calls : list (string * option Args)) :
  calls_of c ((cmd, args) :: calls) = [] ->
  cmd <> c /\ calls_of c calls = [].
Proof.
  unfold calls_of. cbn [List.filter fst].
  destruct (String.eqb_spec cmd c); [discriminate|]. now split.
Qed.

Lemma run_volume (calls : list (string * option Args)) (state : MockState) :
  calls_of "set_volume" calls = [] ->
  volume (run calls state) = volume state.
Proof.
  revert state. induction calls as [|[cmd args] calls IH]; intros state Hc;
    [reflexivity|].
  apply calls_of_nil_cons in Hc as [Hne Hc].
  cbn [run]. rewrite IH by exact Hc. now apply invoke_volume.
Qed.

Lemma run_activePackId (calls : list (string * option Args))
    (state : MockState) :
  calls_of "set_active_pack" calls = [] ->
  activePackId (run calls state) = activePackId state.
Proof.
  revert state. induction calls as [|[cmd args] calls IH]; intros state Hc;
    [reflexivity|].
  apply calls_of_nil_cons in Hc as [Hne Hc].
  cbn [run]. rewrite IH by exact Hc. now apply invoke_activePackId.
Qed.

(** X4.  [get_volume] returns the volume of the last [set_volume]: calls of
    other commands in between do not change it.  A [set_volume] without
    arguments keeps the volume it found. *)
Theorem volume_round_trip (v : jsnum) (rest : list (string * option Args))
    (state : MockState) :
  calls_of "set_volume" rest = [] ->
  fst (invoke "get_volume" None
         (run (("set_volume", args_volume v) :: rest) state))
    = Resolved (VNum v) /\
  fst (invoke "get_volume" None (run (("set_volume", None) :: rest) state))
    = Resolved (VNum (volume state)).
Proof.
  intros Hc. cbn [run]. split.
  - change (invoke "get_volume" None ?s) with (Resolved (VNum (volume s)), s).
    cbn [fst]. now rewrite run_volume.
  - change (invoke "get_volume" None ?s) with (Resolved (VNum (volume s)), s).
    cbn [fst]. now rewrite run_volume.
Qed.

(** The theorem for a volume of zero followed by three calls. *)
Lemma volume_round_trip_witness :
  let rest := [ ("toggle_sound", None);
                ("create_custom_pack", args_name "Test");
                ("get_volume", None) ] in
  calls_of "set_volume" rest = [] /\
  fst (invoke "get_volume" None
         (run (("set_volume", args_volume (Fin 0)) :: rest) defaultState))
    = Resolved (VNum (Fin 0)) /\
  fst (invoke "get_volume" None
         (run (("set_volume", None) :: rest) defaultState))
    = Resolved (VNum (volume defaultState)).
Proof.
  intros rest.
  assert (H : calls_of "set_volume" rest = []) by reflexivity.
  split; [exact H|].
  exact (volume_round_trip (Fin 0) rest defaultState H).
Defined.

(** X5.  [get_active_pack_id] returns the id of the last
    [set_active_pack], whether or not a pack of that id exists, and
    whatever was created or deleted in between. *)
Theorem active_pack_round_trip (packId : string)
    (rest : list (string * option Args)) (state : MockState) :
  calls_of "set_active_pack" rest = [] ->
  fst (invoke "get_active_pack_id" None
         (run (("set_active_pack", args_pack packId) :: rest) state))
    = Resolved (VStr packId).
Proof.
  intros Hc. cbn [run].
  change (invoke "get_active_pack_id" None ?s)
    with (Resolved (VStr (activePackId s)), s).
  cbn [fst]. now rewrite run_activePackId.
Qed.


(** The theorem for an id no pack has, followed by a delete. *)
Lemma active_pack_round_trip_witness :
  let rest := [ ("delete_custom_pack", args_pack "my-custom");
                ("toggle_sound", None) ] in
  calls_of "set_active_pack" rest = [] /\
  fst (invoke "get_active_pack_id" None
         (run (("set_active_pack", args_pack "no-such-pack") :: rest)
              defaultState))
    = Resolved (VStr "no-such-pack").
Proof.
  intros rest.
  assert (H : calls_of "set_active_pack" rest = []) by reflexivity.
  split; [exact H|].
  exact (active_pack_round_trip "no-such-pack" rest defaultState H).
Defined.

(** ** [delete_custom_pack], further *)

Lemma filter_all_true {A} (f : A -> bool) (l : list A) :
  (forall x, x ∈ l -> f x = true) -> List.filter f l = l.
Proof.
  induction l as [|x l IH]; intros H; [reflexivity|]. cbn.
  rewrite (H x) by left. f_equal. apply IH. intros y Hy. apply H. now right.
Qed.

Lemma filter_twice {A} (f : A -> bool) (l : list A) :
  List.filter f (List.filter f l) = List.filter f l.
Proof.
  induction l as [|x l IH]; [reflexivity|]. cbn.
  destruct (f x) eqn:E; cbn; rewrite ?E, IH; reflexivity.
Qed.

Lemma filter_sublist_of {A} (f : A -> bool) (l : list A) :
  List.filter f l `sublist_of` l.
Proof.
  induction l as [|x l IH]; cbn; [constructor|].
  destruct (f x); now constructor.
Qed.

Lemma elem_of_filter_bool {A} (f : A -> bool) (l : list A) (x : A) :
  x ∈ List.filter f l <-> x ∈ l /\ f x = true.
Proof.
  rewrite !list_elem_of_In. apply List.filter_In.
Qed.

Lemma id_differs_true (k : string) (p : Pack) :
  id_differs (Some k) p = true <-> id p <> k.
Proof.
  cbn. destruct (String.eqb_spec (id p) k); cbn; split; congruence.
Qed.

(** X6.  [delete_custom_pack] removes from the list exactly the packs with
    the given id and keeps the others in their order; it drops the slot
    table of that id and keeps the other tables; a second call changes
    nothing more. *)
Theorem delete_removes_exactly (packId : string) (state : MockState) :
  let r := invoke "delete_custom_pack" (args_pack packId) state in
  (forall p, p ∈ packs (snd r) <-> p ∈ packs state /\ id p <> packId) /\
  packs (snd r) `sublist_of` packs state /\
  customSlots (snd r) !! packId = None /\
  (forall k, k <> packId -> customSlots (snd r) !! k = customSlots state !! k) /\
  snd (invoke "delete_custom_pack" (args_pack packId) (snd r)) = snd r.
Proof.
  cbn. split; [|split; [|split; [|split]]].
  - intros p. rewrite elem_of_filter_bool, id_differs_true. reflexivity.
  - apply filter_sublist_of.
  - apply lookup_delete_eq.
  - intros k Hk. now apply lookup_delete_ne.
  - unfold delete_custom_pack; cbn. f_equal.
    + apply filter_twice.
    + apply map_eq. intros k.
      destruct (decide (k = packId)) as [->|Hk];
        [now rewrite !lookup_delete_eq | now rewrite !lookup_delete_ne].
Qed.

(** X7.  Deleting an id that no pack and no slot table has resolves with
    [null] and leaves the state as it was. *)
Theorem delete_unknown_is_noop (packId : string) (state : MockState) :
  packId ∉ map id (packs state) ->
  customSlots state !! packId = None ->
  invoke "delete_custom_pack" (args_pack packId) state = (Resolved VNull, state).
Proof.
  intros Hp Hs. destruct state as [e v a ps cs n]; cbn in *.
  unfold delete_custom_pack; cbn. f_equal. f_equal.
  - apply filter_all_true. intros p Hin. apply id_differs_true.
    intros E. apply Hp. rewrite <- E. apply list_elem_of_In, List.in_map.
    now apply list_elem_of_In.
  - now apply delete_id.
Qed.

(** The theorem for the id [ghost] at the default state. *)
Lemma delete_unknown_is_noop_witness :
  ("ghost" ∉ map id (packs defaultState)) /\
  customSlots defaultState !! "ghost" = None /\
  invoke "delete_custom_pack" (args_pack "ghost") defaultState
  = (Resolved VNull, defaultState).
Proof.
  assert (H1 : "ghost" ∉ map id (packs defaultState)).
  { cbn. rewrite !not_elem_of_cons. repeat split; try discriminate.
    apply not_elem_of_nil. }
  assert (H2 : customSlots defaultState !! "ghost" = None)
    by (vm_compute; reflexivity).
  split; [exact H1|]. split; [exact H2|].
  exact (delete_unknown_is_noop "ghost" defaultState H1 H2).
Defined.





(** ** Writes to one slot *)

Lemma set_file_name_twice (k fn1 fn2 : option string) (slots : list Slot) :
  set_file_name k fn2 (set_file_name k fn1 slots) = set_file_name k fn2 slots.
Proof.
  induction slots as [|x rest IH]; [reflexivity|]. cbn.
  destruct (slot_is k x) eqn:E; cbn.
  - destruct k as [s|]; [|discriminate E]. cbn in E |- *. now rewrite E.
  - now rewrite E, IH.
Qed.

(** X9.  The last write to a slot wins: importing a file over an imported
    one, removing an imported one, or importing after a removal gives the
    state the last call alone gives. *)
Theorem last_slot_write_wins (packId slotKey a b : string)
    (state : MockState) :
  let imported :=
    snd (invoke "import_sound_file" (args_import packId slotKey a) state) in
  snd (invoke "import_sound_file" (args_import packId slotKey b) imported)
    = snd (invoke "import_sound_file" (args_import packId slotKey b) state) /\
  snd (invoke "remove_sound_slot" (args_slot packId slotKey) imported)
    = snd (invoke "remove_sound_slot" (args_slot packId slotKey) state) /\
  snd (invoke "import_sound_file" (args_import packId slotKey b)
         (snd (invoke "remove_sound_slot" (args_slot packId slotKey) state)))
    = snd (invoke "import_sound_file" (args_import packId slotKey b) state).
Proof.
  cbn. unfold import_sound_file, remove_sound_slot, read_slots; cbn.
  destruct (customSlots state !! packId) as [slots|] eqn:Hs; cbn.
  - rewrite !lookup_insert_eq. cbn.
    rewrite !insert_insert_eq, !set_file_name_twice. repeat split.
  - destruct (bool_decide (packId ∈ Object_prototype)); cbn;
      rewrite Hs; cbn; repeat split.
Qed.

(** ** The recorded file name *)

Lemma occurs_app (c : ascii) (a b : string) :
  occurs c (a ++ b) = occurs c a || occurs c b.
Proof.
  induction a as [|d a IH]; [reflexivity|]. simpl.
  now rewrite IH, orb_assoc.
Qed.

Lemma append_snoc (a : string) (c : ascii) (b : string) :
  (a ++ String c EmptyString) ++ b = a ++ String c b.
Proof.
  induction a as [|d a IH]; [reflexivity|].
  change (String d ((a ++ String c EmptyString) ++ b) = String d (a ++ String c b)).
  now f_equal.
Qed.

Lemma append_empty (a : string) : a ++ EmptyString = a.
Proof.
  induction a as [|d a IH]; [reflexivity|].
  change (String d (a ++ EmptyString) = String d a). now f_equal.
Qed.

Lemma replace_backslash_none (s : string) :
  occurs "\"%char (replace_backslash s) = false.
Proof.
  induction s as [|c s IH]; [reflexivity|]. cbn.
  destruct (Ascii.eqb_spec c "\"%char) as [->|Hc]; cbn; [exact IH|].
  destruct (Ascii.eqb_spec c "\"%char); [contradiction | exact IH].
Qed.

Lemma replace_backslash_id (s : string) :
  occurs "\"%char s = false -> replace_backslash s = s.
Proof.
  induction s as [|c s IH]; [reflexivity|]. cbn.
  destruct (Ascii.eqb c "\"%char); [discriminate|]. cbn.
  intros H. now rewrite IH.
Qed.

Lemma replace_backslash_app (a b : string) :
  replace_backslash (a ++ b) = replace_backslash a ++ replace_backslash b.
Proof.
  induction a as [|c a IH]; [reflexivity|].
  change (String (if Ascii.eqb c "\"%char then "/"%char else c)
                 (replace_backslash (a ++ b))
          = String (if Ascii.eqb c "\"%char then "/"%char else c)
                   (replace_backslash a ++ replace_backslash b)).
  now f_equal.
Qed.

Lemma last_segment_occurs (c : ascii) (s acc : string) :
  occurs c acc = false -> occurs c s = false \/ c = "/"%char ->
  occurs c (last_segment_from acc s) = false.
Proof.
  revert acc. induction s as [|d s IH]; intros acc Hacc Hs; [exact Hacc|].
  cbn. destruct (Ascii.eqb_spec d "/"%char) as [->|Hd].
  - apply IH; [reflexivity|]. destruct Hs as [Hs|Hs]; [|now right].
    cbn in Hs. apply orb_false_iff in Hs as [_ Hs]. now left.
  - apply IH.
    + rewrite occurs_app, Hacc. cbn. rewrite orb_false_r.
      destruct Hs as [Hs| ->].
      * cbn in Hs. now apply orb_false_iff in Hs as [Hs _].
      * now apply Ascii.eqb_neq.
    + destruct Hs as [Hs|Hs]; [|now right].
      cbn in Hs. apply orb_false_iff in Hs as [_ Hs]. now left.
Qed.

Lemma last_segment_plain (s acc : string) :
  occurs "/"%char s = false -> last_segment_from acc s = acc ++ s.
Proof.
  revert acc. induction s as [|d s IH]; intros acc Hs; cbn.
  - now rewrite append_empty.
  - cbn in Hs. apply orb_false_iff in Hs as [Hd Hs]. rewrite Hd.
    rewrite IH by exact Hs. apply append_snoc.
Qed.

Lemma last_segment_after_slash (d n acc : string) :
  last_segment_from acc (d ++ String "/"%char n)
  = last_segment_from EmptyString n.
Proof.
  revert acc. induction d as [|c d IH]; intros acc.
  - reflexivity.
  - change (String c d ++ String "/"%char n)
      with (String c (d ++ String "/"%char n)).
    cbn [last_segment_from]. destruct (Ascii.eqb c "/"%char); apply IH.
Qed.

(** X10.  The file name recorded for a path holds neither a slash nor a
    backslash, and taking the file name of a file name changes nothing. *)
Theorem fileName_has_no_separator (filePath : string) :
  has_separator (fileName_of filePath) = false /\
  fileName_of (fileName_of filePath) = fileName_of filePath.
Proof.
  assert (H1 : occurs "/"%char (fileName_of filePath) = false).
  { apply last_segment_occurs; [reflexivity | now right]. }
  assert (H2 : occurs "\"%char (fileName_of filePath) = false).
  { apply last_segment_occurs; [reflexivity|]. left.
    apply replace_backslash_none. }
  split.
  - unfold has_separator. now rewrite H1, H2.
  - unfold fileName_of at 1. rewrite replace_backslash_id by exact H2.
    now rewrite last_segment_plain by exact H1.
Qed.

(** X11.  For a name without separators, the file name of
    [dir/name] and of [dir\name] is [name], and so is that of [name]
    alone. *)
Theorem fileName_of_path (dir name : string) (sep : ascii) :
  sep = "/"%char \/ sep = "\"%char ->
  has_separator name = false ->
  fileName_of (dir ++ String sep name) = name /\
  fileName_of name = name.
Proof.
  intros Hsep Hn. unfold has_separator in Hn.
  apply orb_false_iff in Hn as [Hs Hb].
  assert (Hname : fileName_of name = name).
  { unfold fileName_of. rewrite replace_backslash_id by exact Hb.
    now rewrite last_segment_plain by exact Hs. }
  split; [|exact Hname].
  unfold fileName_of. rewrite replace_backslash_app. cbn [replace_backslash].
  assert (E : (if Ascii.eqb sep "\"%char then "/"%char else sep) = "/"%char)
    by (destruct Hsep as [-> | ->]; reflexivity).
  rewrite E, last_segment_after_slash. exact Hname.
Qed.

(** The theorem for a Windows path. *)
Lemma fileName_of_path_witness :
  ("\"%char = "/"%char \/ "\"%char = "\"%char) /\
  has_separator "click.wav" = false /\
  fileName_of ("C:\sounds" ++ String "\"%char "click.wav") = "click.wav" /\
  fileName_of "click.wav" = "click.wav".
Proof.
  assert (H1 : "\"%char = "/"%char \/ "\"%char = "\"%char) by now right.
  assert (H2 : has_separator "click.wav" = false) by reflexivity.
  split; [exact H1|]. split; [exact H2|].
  exact (fileName_of_path "C:\sounds" "click.wav" "\"%char H1 H2).
Defined.


(** ** The shape of the slot tables *)






(** The read of a slot table under the name of an inherited member. *)
Example get_custom_pack_slots_constructor :
  fst (invoke "get_custom_pack_slots" (args_pack "constructor") defaultState)
    = Rejected /\
  fst (invoke "get_custom_pack_slots" (args_pack "no-such-pack") defaultState)
    = Resolved (VSlots []).
Proof. split; vm_compute; reflexivity. Qed.

(** ** Slot tables and user packs *)





End MockMore.

(** * Further facts about the WAV writer *)

Module WavMore.
Import Wav WavFacts WavWords.

Section Rounding.

Variable rnd : Q -> Q.
Hypothesis rnd_mono : forall x y : Q, (x <= y)%Q -> (rnd x <= rnd y)%Q.
Hypothesis rnd_int :
  forall z : Z, (Z.abs z <= 2 ^ 53)%Z -> (rnd (inject_Z z) == inject_Z z)%Q.

Lemma rnd_0 : (rnd 0 == 0)%Q.
Proof. exact (rnd_int 0 ltac:(lia)). Qed.

(** The clamped value of a number that is not NaN. *)
Lemma clamped_value (x : jsnum) :
  x <> NaN ->
  exists c, clamped x = Fin c /\ (-1 # 1 <= c)%Q /\ (c <= 1)%Q /\
    match x with
    | Fin q => ((q <= -1 # 1)%Q -> c == -1 # 1)%Q /\
               ((1 <= q)%Q -> c == 1)%Q /\
               ((-1 # 1 <= q)%Q -> (q <= 1)%Q -> c == q)%Q
    | PInf => c = 1%Q
    | NInf => c = (-1 # 1)%Q
    | NaN => False
    end.
Proof.
  intros Hx. unfold clamped.
  destruct x as [q| | |]; [|contradiction| |]; cbn.
  - destruct (Qle_bool 1 q) eqn:E1; cbn.
    + apply Qle_bool_iff in E1. exists 1%Q.
      repeat split; try lra; intros; lra.
    + apply Qle_bool_false in E1.
      destruct (Qle_bool (-1 # 1) q) eqn:E2; cbn.
      * apply Qle_bool_iff in E2. exists q. repeat split; try lra; intros; lra.
      * apply Qle_bool_false in E2. exists (-1 # 1)%Q.
        repeat split; try lra; intros; lra.
  - exists 1%Q. repeat split; lra.
  - exists (-1 # 1)%Q. repeat split; lra.
Qed.

Lemma clamped_mono (x y : jsnum) (cx cy : Q) :
  js_le x y -> clamped x = Fin cx -> clamped y = Fin cy -> (cx <= cy)%Q.
Proof.
  intros Hle Hx Hy.
  assert (Nx : x <> NaN) by (intros ->; destruct y; exact Hle).
  assert (Ny : y <> NaN) by (intros ->; destruct x; exact Hle).
  destruct (clamped_value x Nx) as (cx' & Ex & Lx & Ux & Vx).
  destruct (clamped_value y Ny) as (cy' & Ey & Ly & Uy & Vy).
  rewrite Ex in Hx. rewrite Ey in Hy. injection Hx as <-. injection Hy as <-.
  destruct x as [p| | |], y as [q| | |]; cbn in Hle; try contradiction;
    subst; lra.
Qed.

(** The value that reaches [Math.round] for a clamped sample. *)
Lemma scaled_value (c : Q) :
  scaled rnd (Fin c)
  = Fin (rnd (c * (if Qle_bool 0 c then 32767 # 1 else 32768 # 1))).
Proof.
  unfold scaled, js_ltb, Qltb, js_scale.
  destruct (Qle_bool 0 c); reflexivity.
Qed.

Lemma scaled_mono (cx cy : Q) :
  (cx <= cy)%Q ->
  (rnd (cx * (if Qle_bool 0 cx then 32767 # 1 else 32768 # 1))
   <= rnd (cy * (if Qle_bool 0 cy then 32767 # 1 else 32768 # 1)))%Q.
Proof.
  intros Hle. pose proof rnd_0 as R0.
  destruct (Qle_bool 0 cx) eqn:Ex, (Qle_bool 0 cy) eqn:Ey.
  - apply rnd_mono. lra.
  - apply Qle_bool_iff in Ex. apply Qle_bool_false in Ey. lra.
  - apply Qle_bool_false in Ex. apply Qle_bool_iff in Ey.
    pose proof (rnd_mono (cx * (32768 # 1)) 0 ltac:(lra)).
    pose proof (rnd_mono 0 (cy * (32767 # 1)) ltac:(lra)). lra.
  - apply rnd_mono. lra.
Qed.

Lemma quantisation_mono (x y : jsnum) :
  js_le x y ->
  exists zx zy : Z,
    int16_arg rnd x = Fin (inject_Z zx) /\
    int16_arg rnd y = Fin (inject_Z zy) /\
    (zx <= zy)%Z.
Proof.
  intros Hle.
  assert (Nx : x <> NaN) by (intros ->; destruct y; exact Hle).
  assert (Ny : y <> NaN) by (intros ->; destruct x; exact Hle).
  destruct (clamped_value x Nx) as (cx & Ex & _).
  destruct (clamped_value y Ny) as (cy & Ey & _).
  pose proof (clamped_mono x y cx cy Hle Ex Ey) as Hc.
  unfold int16_arg. rewrite Ex, Ey, !scaled_value. cbn [js_round].
  eexists _, _. split; [reflexivity|]. split; [reflexivity|].
  apply Qfloor_resp_le. pose proof (scaled_mono cx cy Hc). lra.
Qed.

Lemma rnd_at_integer (x : Q) (z : Z) :
  (x == inject_Z z)%Q -> (Z.abs z <= 2 ^ 53)%Z -> (rnd x == inject_Z z)%Q.
Proof.
  intros Hx Hz. pose proof (rnd_int z Hz) as R.
  pose proof (rnd_mono x (inject_Z z) ltac:(lra)).
  pose proof (rnd_mono (inject_Z z) x ltac:(lra)). lra.
Qed.

Lemma Qfloor_half (z : Z) : Qfloor (inject_Z z + (1 # 2)) = z.
Proof.
  pose proof (Qfloor_le (inject_Z z + (1 # 2))) as Hlo.
  pose proof (Qlt_floor (inject_Z z + (1 # 2))) as Hhi.
  set (f := Qfloor (inject_Z z + (1 # 2))) in *.
  destruct (Z.lt_trichotomy f z) as [H|[H|H]]; [|exact H|].
  - assert (H' : (f + 1 <= z)%Z) by lia. rewrite Zle_Qle in H'. lra.
  - assert (H' : (z + 1 <= f)%Z) by lia. rewrite Zle_Qle in H'.
    rewrite inject_Z_plus in H'. change (inject_Z 1) with 1%Q in H'. lra.
Qed.

Lemma round_scaled_at (c : Q) (z : Z) :
  (c * (if Qle_bool 0 c then 32767 # 1 else 32768 # 1) == inject_Z z)%Q ->
  (Z.abs z <= 2 ^ 53)%Z ->
  js_round (scaled rnd (Fin c)) = Fin (inject_Z z).
Proof.
  intros Hc Hz. rewrite scaled_value. cbn [js_round]. do 2 f_equal.
  rewrite <- (Qfloor_half z). apply Qfloor_comp.
  pose proof (rnd_at_integer _ z Hc Hz). lra.
Qed.

Lemma quantisation_fixed_points :
  int16_arg rnd (Fin 0) = Fin (inject_Z 0) /\
  int16_arg rnd (Fin 1) = Fin (inject_Z 32767) /\
  int16_arg rnd (Fin (-1 # 1)) = Fin (inject_Z (-32768)) /\
  int16_arg rnd PInf = Fin (inject_Z 32767) /\
  int16_arg rnd NInf = Fin (inject_Z (-32768)).
Proof.
  unfold int16_arg.
  change (clamped (Fin 0)) with (Fin 0).
  change (clamped (Fin 1)) with (Fin 1).
  change (clamped (Fin (-1 # 1))) with (Fin (-1 # 1)).
  change (clamped PInf) with (Fin 1).
  change (clamped NInf) with (Fin (-1 # 1)).
  repeat split; apply round_scaled_at; try reflexivity; lia.
Qed.

(** X14.  The conversion of a sample to the 16-bit argument keeps order
    and sign: of two samples, neither NaN, the smaller gets the smaller
    integer, a sample at or above zero a non-negative one and a sample at
    or below zero a non-positive one. *)
Theorem quantisation_keeps_order (x y : jsnum) :
  js_le x y ->
  exists zx zy : Z,
    int16_arg rnd x = Fin (inject_Z zx) /\
    int16_arg rnd y = Fin (inject_Z zy) /\
    (zx <= zy)%Z /\
    (js_le (Fin 0) x -> (0 <= zx)%Z) /\
    (js_le y (Fin 0) -> (zy <= 0)%Z).
Proof.
  intros Hle. destruct (quantisation_mono x y Hle) as (zx & zy & Ex & Ey & Hz).
  destruct quantisation_fixed_points as (E0 & _).
  exists zx, zy. repeat split; try assumption.
  - intros H0. destruct (quantisation_mono (Fin 0) x H0)
      as (a & b & Ea & Eb & Hab).
    rewrite E0 in Ea. rewrite Ex in Eb.
    injection Ea as Ea. injection Eb as Eb. lia.
  - intros H0. destruct (quantisation_mono y (Fin 0) H0)
      as (a & b & Ea & Eb & Hab).
    rewrite E0 in Eb. rewrite Ey in Ea.
    injection Ea as Ea. injection Eb as Eb. lia.
Qed.

(** ** The bytes of the file *)

Lemma encodeWav_bytes (MAX_LENGTH : Z) (samples : list jsnum)
    (sampleRate : Z) :
  fits MAX_LENGTH (length samples) sampleRate ->
  encodeWav MAX_LENGTH rnd samples sampleRate
  = Some (header (Z.of_nat (length samples) * 2) sampleRate
          ++ flat_map (fun x => sample_bytes (int16_arg rnd x)) samples)%list.
Proof.
  intros (Hmax & Hriff & Hrate).
  rewrite encodeWav_header by lia.
  now apply write_samples_eq.
Qed.

(** X15.  Whenever the sizes fit, the buffer starts with a canonical
    header: the tags RIFF, WAVE, fmt and data at offsets 0, 8, 12 and 36, a
    format chunk of 16 bytes for PCM (1), one channel, 44100 samples and
    88200 bytes a second, blocks of 2 bytes and 16 bits a sample. *)
Theorem encodeWav_format_chunk (MAX_LENGTH : Z) (samples : list jsnum) :
  fits MAX_LENGTH (length samples) SAMPLE_RATE ->
  exists buffer,
    encodeWav MAX_LENGTH rnd samples SAMPLE_RATE = Some buffer /\
    slice 0 4 buffer = codes "RIFF" /\
    slice 8 8 buffer = codes "WAVEfmt " /\
    readUInt32LE 16 buffer = Some 16%Z /\
    readUInt16LE 20 buffer = Some 1%Z /\
    readUInt16LE 22 buffer = Some 1%Z /\
    readUInt32LE 24 buffer = Some 44100%Z /\
    readUInt32LE 28 buffer = Some 88200%Z /\
    readUInt16LE 32 buffer = Some 2%Z /\
    readUInt16LE 34 buffer = Some 16%Z /\
    slice 36 4 buffer = codes "data".
Proof.
  intros Hfit. eexists. split; [now apply encodeWav_bytes|].
  repeat split.
Qed.

Lemma writeUIntLE_refuses (n : nat) (max v : Z) (offset : nat)
    (buf : list Z) :
  (v < 0 \/ max < v)%Z -> writeUIntLE n max v offset buf = None.
Proof.
  intros Hv. unfold writeUIntLE.
  destruct (Z.ltb_spec max v); [reflexivity|].
  destruct (Z.ltb_spec v 0); [reflexivity | lia].
Qed.

Lemma encodeWav_bad_rate (MAX_LENGTH : Z) (samples : list jsnum)
    (sampleRate : Z) :
  (sampleRate < 0 \/ 2147483647 < sampleRate)%Z ->
  encodeWav MAX_LENGTH rnd samples sampleRate = None.
Proof.
  intros Hrate. unfold encodeWav. cbv zeta.
  change (BIT_DEPTH / 8)%Z with 2%Z.
  set (dataSize := (Z.of_nat (length samples) * 2)%Z).
  unfold alloc.
  destruct ((44 + dataSize <? 0)%Z || (MAX_LENGTH <? 44 + dataSize)%Z);
    [reflexivity|].
  cbn [mbind option_bind].
  replace (Z.to_nat (44 + dataSize)) with (44 + 2 * length samples)%nat
    by (unfold dataSize; lia).
  rewrite replicate_add.
  rewrite write_app_l by side.
  unfold writeUInt32LE, writeUInt16LE.
  destruct (Z_le_gt_dec (36 + dataSize) 4294967295) as [Hriff|Hriff];
    [|now rewrite writeUIntLE_refuses by lia].
  rewrite writeUIntLE_app_l by (unfold dataSize; side).
  cbn [mbind option_bind].
  rewrite !write_app_l by side.
  rewrite writeUIntLE_app_l by side. cbn [mbind option_bind].
  rewrite writeUIntLE_app_l by side. cbn [mbind option_bind].
  rewrite writeUIntLE_app_l by side. cbn [mbind option_bind].
  destruct (Z_le_gt_dec sampleRate 4294967295) as [Hr|Hr];
    [|now rewrite writeUIntLE_refuses by lia].
  destruct (Z_lt_le_dec sampleRate 0) as [Hn|Hn];
    [now rewrite writeUIntLE_refuses by lia|].
  rewrite writeUIntLE_app_l by side. cbn [mbind option_bind].
  now rewrite writeUIntLE_refuses by lia.
Qed.

(** X16.  For an integer sample rate [encodeWav] returns a buffer exactly
    when [44 + 2n] is within the largest buffer length, [36 + 2n] is at
    most [2^32 - 1] and the rate lies in [0, 2^31 - 1]; otherwise a write
    throws. *)
Theorem encodeWav_returns_iff (MAX_LENGTH : Z) (samples : list jsnum)
    (sampleRate : Z) :
  is_Some (encodeWav MAX_LENGTH rnd samples sampleRate)
  <-> fits MAX_LENGTH (length samples) sampleRate.
Proof.
  split.
  - intros [buffer Hrun]. unfold fits.
    destruct (Z_le_gt_dec (44 + 2 * Z.of_nat (length samples)) MAX_LENGTH)
      as [H1|H1].
    2:{ exfalso. unfold encodeWav, alloc in Hrun. cbv zeta in Hrun.
        change (BIT_DEPTH / 8)%Z with 2%Z in Hrun.
        destruct (Z.ltb_spec MAX_LENGTH
                    (44 + Z.of_nat (length samples) * 2)); [|lia].
        rewrite orb_true_r in Hrun. discriminate Hrun. }
    destruct (Z_le_gt_dec (36 + 2 * Z.of_nat (length samples)) 4294967295)
      as [H2|H2].
    2:{ exfalso. rewrite encodeWav_too_long in Hrun by lia.
        discriminate Hrun. }
    destruct (Z_lt_le_dec sampleRate 0) as [H3|H3].
    { exfalso. rewrite encodeWav_bad_rate in Hrun by lia. discriminate Hrun. }
    destruct (Z_le_gt_dec sampleRate 2147483647) as [H4|H4].
    2:{ exfalso. rewrite encodeWav_bad_rate in Hrun by lia.
        discriminate Hrun. }
    lia.
  - intros Hfit. rewrite encodeWav_bytes by exact Hfit. eexists; reflexivity.
Qed.

End Rounding.

(** The theorem for the samples [-1/3] and [1/4], under exact
    arithmetic. *)
Lemma quantisation_keeps_order_witness :
  (forall x y : Q, (x <= y)%Q -> (rnd_exact x <= rnd_exact y)%Q) /\
  (forall z : Z, (Z.abs z <= 2 ^ 53)%Z ->
                 (rnd_exact (inject_Z z) == inject_Z z)%Q) /\
  js_le (Fin (-1 # 3)) (Fin (1 # 4)) /\
  exists zx zy : Z,
    int16_arg rnd_exact (Fin (-1 # 3)) = Fin (inject_Z zx) /\
    int16_arg rnd_exact (Fin (1 # 4)) = Fin (inject_Z zy) /\
    (zx <= zy)%Z /\
    (js_le (Fin 0) (Fin (-1 # 3)) -> (0 <= zx)%Z) /\
    (js_le (Fin (1 # 4)) (Fin 0) -> (zy <= 0)%Z).
Proof.
  assert (H1 : forall x y : Q, (x <= y)%Q -> (rnd_exact x <= rnd_exact y)%Q)
    by (intros x y H; exact H).
  assert (H2 : forall z : Z, (Z.abs z <= 2 ^ 53)%Z ->
                 (rnd_exact (inject_Z z) == inject_Z z)%Q)
    by (intros z _; reflexivity).
  assert (H3 : js_le (Fin (-1 # 3)) (Fin (1 # 4))) by (cbn; lra).
  split; [exact H1|]. split; [exact H2|]. split; [exact H3|].
  exact (quantisation_keeps_order rnd_exact H1 H2 _ _ H3).
Defined.

(** The theorem for two samples. *)
Lemma encodeWav_format_chunk_witness :
  (forall x y : Q, (x <= y)%Q -> (rnd_exact x <= rnd_exact y)%Q) /\
  (forall z : Z, (Z.abs z <= 2 ^ 53)%Z ->
                 (rnd_exact (inject_Z z) == inject_Z z)%Q) /\
  fits MAX_LENGTH_node22 (length [Fin (1 # 2); NaN]) SAMPLE_RATE /\
  exists buffer,
    encodeWav MAX_LENGTH_node22 rnd_exact [Fin (1 # 2); NaN] SAMPLE_RATE
      = Some buffer /\
    slice 0 4 buffer = codes "RIFF" /\
    slice 8 8 buffer = codes "WAVEfmt " /\
    readUInt32LE 16 buffer = Some 16%Z /\
    readUInt16LE 20 buffer = Some 1%Z /\
    readUInt16LE 22 buffer = Some 1%Z /\
    readUInt32LE 24 buffer = Some 44100%Z /\
    readUInt32LE 28 buffer = Some 88200%Z /\
    readUInt16LE 32 buffer = Some 2%Z /\
    readUInt16LE 34 buffer = Some 16%Z /\
    slice 36 4 buffer = codes "data".
Proof.
  assert (H1 : forall x y : Q, (x <= y)%Q -> (rnd_exact x <= rnd_exact y)%Q)
    by (intros x y H; exact H).
  assert (H2 : forall z : Z, (Z.abs z <= 2 ^ 53)%Z ->
                 (rnd_exact (inject_Z z) == inject_Z z)%Q)
    by (intros z _; reflexivity).
  assert (H3 : fits MAX_LENGTH_node22 (length [Fin (1 # 2); NaN]) SAMPLE_RATE)
    by (unfold fits, MAX_LENGTH_node22, SAMPLE_RATE; cbn [length]; lia).
  split; [exact H1|]. split; [exact H2|]. split; [exact H3|].
  exact (encodeWav_format_chunk rnd_exact H1 H2 MAX_LENGTH_node22 _ H3).
Defined.

(** The theorem for one sample at 48000 Hz. *)
Lemma encodeWav_returns_iff_witness :
  (forall x y : Q, (x <= y)%Q -> (rnd_exact x <= rnd_exact y)%Q) /\
  (forall z : Z, (Z.abs z <= 2 ^ 53)%Z ->
                 (rnd_exact (inject_Z z) == inject_Z z)%Q) /\
  (is_Some (encodeWav MAX_LENGTH_node22 rnd_exact [Fin (1 # 2)] 48000)
   <-> fits MAX_LENGTH_node22 (length [Fin (1 # 2)]) 48000).
Proof.
  assert (H1 : forall x y : Q, (x <= y)%Q -> (rnd_exact x <= rnd_exact y)%Q)
    by (intros x y H; exact H).
  assert (H2 : forall z : Z, (Z.abs z <= 2 ^ 53)%Z ->
                 (rnd_exact (inject_Z z) == inject_Z z)%Q)
    by (intros z _; reflexivity).
  split; [exact H1|]. split; [exact H2|].
  exact (encodeWav_returns_iff rnd_exact H1 H2 MAX_LENGTH_node22
           [Fin (1 # 2)] 48000).
Defined.

End WavMore.

(** * Facts about the WAV writer of the trimming script *)

Module TrimFacts.
Import Wav WavFacts WavWords WavMore Trim.

(** Where no sample is negative the two loops write the same. *)
Lemma intSample_not_negative (rnd : Q -> Q) (x : jsnum) :
  not_negative x -> intSample rnd x = int16_arg rnd x.
Proof.
  intros [->|Hx]; [reflexivity|].
  unfold intSample, int16_arg, scaled.
  assert (Nx : x <> NaN) by (intros ->; exact Hx).
  destruct (clamped_range x Nx) as (c & Ec & Hlo & Hhi).
  assert (H0 : (0 <= c)%Q).
  { revert Ec. unfold clamped.
    destruct x as [q| | |]; cbn in Hx; try contradiction; cbn.
    - destruct (Qle_bool 1 q) eqn:E1; cbn.
      + intros [= <-]. lra.
      + destruct (Qle_bool (-1 # 1) q) eqn:E2; cbn.
        * intros [= <-]. exact Hx.
        * apply Qle_bool_false in E2. lra.
    - intros [= <-]. lra. }
  rewrite Ec. unfold js_ltb, Qltb.
  apply Qle_bool_iff in H0. rewrite H0. reflexivity.
Qed.

Lemma write_samples_agree (rnd : Q -> Q) (samples : list jsnum) :
  Forall not_negative samples ->
  forall i buffer,
    Trim.write_samples rnd samples i buffer
    = Wav.write_samples rnd samples i buffer.
Proof.
  induction 1 as [|x rest Hx _ IH]; intros i buffer; [reflexivity|].
  cbn [Trim.write_samples Wav.write_samples].
  rewrite (intSample_not_negative rnd x Hx).
  destruct (writeInt16LE _ _ buffer) as [b|]; [|reflexivity].
  cbn [mbind option_bind]. apply IH.
Qed.

(** The header of [writeWav] is written by the calls of [encodeWav]. *)
Lemma writeWav_unfold (MAX_LENGTH : Z) (rnd : Q -> Q) (filePath : string)
    (samples : list jsnum) (sampleRate : Z) :
  Forall not_negative samples ->
  writeWav MAX_LENGTH rnd filePath samples sampleRate
  = (buffer ← encodeWav MAX_LENGTH rnd samples sampleRate;
     Some (filePath, buffer)).
Proof.
  intros Hs. unfold writeWav, encodeWav. cbv zeta.
  change (BIT_DEPTH / 8)%Z with 2%Z. change BIT_DEPTH with 16%Z.
  rewrite !Z.mul_1_l, Z.mul_1_r.
  repeat match goal with
  | |- context [mbind _ ?m] =>
      lazymatch m with
      | Wav.write_samples _ _ _ _ => fail
      | Trim.write_samples _ _ _ _ => fail
      | _ => destruct m as [?b|]; [cbn [mbind option_bind]|reflexivity]
      end
  end.
  now rewrite write_samples_agree.
Qed.

(** X17.  Where no sample is negative, [writeWav] hands to
    [writeFileSync] the buffer [encodeWav] returns for the same samples
    and rate, under the path it was given, and throws where [encodeWav]
    throws. *)
Theorem writeWav_agrees_with_encodeWav (MAX_LENGTH : Z) (rnd : Q -> Q)
    (filePath : string) (samples : list jsnum) (sampleRate : Z) :
  Forall not_negative samples ->
  writeWav MAX_LENGTH rnd filePath samples sampleRate
  = (fun buffer => (filePath, buffer))
      <$> encodeWav MAX_LENGTH rnd samples sampleRate.
Proof.
  intros Hs. rewrite writeWav_unfold by exact Hs.
  now destruct (encodeWav MAX_LENGTH rnd samples sampleRate).
Qed.

(** The theorem for three samples at 48000 Hz. *)
Lemma writeWav_agrees_with_encodeWav_witness :
  let samples := [Fin (1 # 2); NaN; PInf] in
  Forall not_negative samples /\
  writeWav MAX_LENGTH_node22 rnd_exact "a.wav" samples 48000
  = (fun buffer => ("a.wav", buffer))
      <$> encodeWav MAX_LENGTH_node22 rnd_exact samples 48000.
Proof.
  intros samples.
  assert (H : Forall not_negative samples).
  { apply Forall_cons; split; [right; cbn; lra|].
    apply Forall_cons; split; [now left|].
    apply Forall_cons; split; [right; exact I|]. apply Forall_nil_2. }
  split; [exact H|].
  exact (writeWav_agrees_with_encodeWav MAX_LENGTH_node22 rnd_exact
           "a.wav" samples 48000 H).
Defined.

Section Rounding.

Variable rnd : Q -> Q.
Hypothesis rnd_mono : forall x y : Q, (x <= y)%Q -> (rnd x <= rnd y)%Q.
Hypothesis rnd_int :
  forall z : Z, (Z.abs z <= 2 ^ 53)%Z -> (rnd (inject_Z z) == inject_Z z)%Q.

(** The integer [writeWav] stores for a sample that is not NaN. *)
Lemma intSample_value (x : jsnum) :
  x <> NaN ->
  exists z : Z,
    intSample rnd x = Fin (inject_Z z) /\
    (-32767 <= z <= 32767)%Z /\
    (js_le (Fin 1) x -> z = 32767%Z) /\
    (js_le x (Fin (-1 # 1)) -> z = (-32767)%Z).
Proof.
  intros Nx. unfold intSample.
  destruct (clamped_value x Nx) as (c & Ec & Hlo & Hhi & Hv).
  rewrite Ec. cbn [js_scale js_round].
  pose proof (rnd_int 32767 ltac:(lia)) as Rp.
  pose proof (rnd_int (-32767) ltac:(lia)) as Rn.
  change (inject_Z 32767) with (32767 # 1)%Q in Rp.
  change (inject_Z (-32767)) with (-32767 # 1)%Q in Rn.
  pose proof (rnd_mono (-32767 # 1) (c * (32767 # 1)) ltac:(lra)) as H1.
  pose proof (rnd_mono (c * (32767 # 1)) (32767 # 1) ltac:(lra)) as H2.
  exists (Qfloor (rnd (c * (32767 # 1)) + (1 # 2))).
  split; [reflexivity|]. split; [split|split].
  - rewrite <- (Qfloor_half (-32767)). apply Qfloor_resp_le.
    change (inject_Z (-32767)) with (-32767 # 1)%Q. lra.
  - apply Z.le_trans with (Qfloor (inject_Z 32767 + (1 # 2)));
      [|rewrite Qfloor_half; lia].
    apply Qfloor_resp_le. change (inject_Z 32767) with (32767 # 1)%Q.
    lra.
  - intros H. transitivity (Qfloor (inject_Z 32767 + (1 # 2)));
      [|apply Qfloor_half].
    apply Qfloor_comp.
    change (inject_Z 32767) with (32767 # 1)%Q.
    assert (Hc : (c == 1)%Q).
    { destruct x as [q| | |]; cbn in H; try contradiction.
      - now apply Hv.
      - subst c. reflexivity. }
    pose proof (rnd_mono (32767 # 1) (c * (32767 # 1)) ltac:(lra)). lra.
  - intros H. transitivity (Qfloor (inject_Z (-32767) + (1 # 2)));
      [|apply Qfloor_half].
    apply Qfloor_comp.
    change (inject_Z (-32767)) with (-32767 # 1)%Q.
    assert (Hc : (c == -1 # 1)%Q).
    { destruct x as [q| | |]; cbn in H; try contradiction.
      - now apply Hv.
      - subst c. reflexivity. }
    pose proof (rnd_mono (c * (32767 # 1)) (-32767 # 1) ltac:(lra)). lra.
Qed.

Lemma trim_samples_eq (samples : list jsnum) :
  forall (i : nat) (pre : list Z),
    length pre = 44 + i * 2 ->
    Trim.write_samples rnd samples i
      (pre ++ replicate (2 * length samples) 0%Z)
    = Some (pre ++ flat_map (fun x => sample_bytes (intSample rnd x)) samples)%list.
Proof.
  induction samples as [|x rest IH]; intros i pre Hlen.
  - reflexivity.
  - cbn [Trim.write_samples flat_map].
    replace (2 * length (x :: rest)) with (S (S (2 * length rest)))
      by (cbn [length]; lia).
    cbn [replicate]. rewrite <- Hlen.
    assert (Hw : writeInt16LE (intSample rnd x) (length pre)
                   (pre ++ 0%Z :: 0%Z :: replicate (2 * length rest) 0%Z)
                 = Some ((pre ++ sample_bytes (intSample rnd x))
                           ++ replicate (2 * length rest) 0%Z)%list).
    { destruct x as [q| | |].
      2:{ change (intSample rnd NaN) with NaN.
          rewrite writeInt16LE_NaN
            by (rewrite length_app; cbn [length]; lia).
          rewrite store_le_2_at_end. now rewrite <- app_assoc. }
      all: match goal with
           | |- context [intSample rnd ?y] =>
               destruct (intSample_value y ltac:(discriminate))
                 as (z & -> & Hz & _)
           end;
        rewrite writeInt16LE_int16
          by (try lia; rewrite length_app; cbn [length]; lia);
        rewrite store_le_2_at_end; cbn [sample_bytes];
        rewrite Qtrunc_Z; now rewrite <- app_assoc. }
    rewrite Hw. cbn [mbind option_bind].
    rewrite (IH (S i)).
    + now rewrite <- app_assoc.
    + rewrite length_app.
      assert (length (sample_bytes (intSample rnd x)) = 2)
        by (destruct (intSample rnd x); reflexivity).
      lia.
Qed.

Lemma writeWav_header (MAX_LENGTH : Z) (filePath : string)
    (samples : list jsnum) (sampleRate : Z) :
  fits MAX_LENGTH (length samples) sampleRate ->
  writeWav MAX_LENGTH rnd filePath samples sampleRate
  = (buffer ← Trim.write_samples rnd samples 0
       (header (Z.of_nat (length samples) * 2) sampleRate
        ++ replicate (2 * length samples) 0%Z);
     Some (filePath, buffer)).
Proof.
  intros (Hmax & Hriff & Hrate). unfold writeWav. cbv zeta.
  set (dataSize := (Z.of_nat (length samples) * 2)%Z).
  rewrite alloc_ok by (unfold dataSize; lia). cbn [mbind option_bind].
  replace (Z.to_nat (44 + dataSize)) with (44 + 2 * length samples)%nat
    by (unfold dataSize; lia).
  rewrite replicate_add.
  rewrite write_app_l by side.
  unfold writeUInt32LE, writeUInt16LE.
  rewrite writeUIntLE_app_l by (unfold dataSize; side).
  cbn [mbind option_bind].
  rewrite !write_app_l by side.
  rewrite writeUIntLE_app_l by side. cbn [mbind option_bind].
  rewrite writeUIntLE_app_l by side. cbn [mbind option_bind].
  rewrite writeUIntLE_app_l by side. cbn [mbind option_bind].
  rewrite writeUIntLE_app_l by side. cbn [mbind option_bind].
  rewrite writeUIntLE_app_l by side. cbn [mbind option_bind].
  rewrite writeUIntLE_app_l by side. cbn [mbind option_bind].
  rewrite writeUIntLE_app_l by side. cbn [mbind option_bind].
  rewrite write_app_l by side.
  rewrite writeUIntLE_app_l by (unfold dataSize; side).
  cbn [mbind option_bind].
  unfold header. change (BIT_DEPTH / 8)%Z with 2%Z.
  change BIT_DEPTH with 16%Z. rewrite !Z.mul_1_l, Z.mul_1_r.
  reflexivity.
Qed.

Lemma writeWav_bytes (MAX_LENGTH : Z) (filePath : string)
    (samples : list jsnum) (sampleRate : Z) :
  fits MAX_LENGTH (length samples) sampleRate ->
  writeWav MAX_LENGTH rnd filePath samples sampleRate
  = Some (filePath,
          (header (Z.of_nat (length samples) * 2) sampleRate
           ++ flat_map (fun x => sample_bytes (intSample rnd x)) samples)%list).
Proof.
  intros Hfit. rewrite writeWav_header by exact Hfit.
  now rewrite trim_samples_eq.
Qed.

(** X18.  Whenever the sizes and the rate fit, [writeWav] writes one file
    of [44 + 2n] bytes under the given path; its fields read [36 + 2n],
    the rate, twice the rate and [2n]; every sample is read back at
    offset [44 + 2i] as an integer of [-32767, 32767], a NaN as zero, a
    sample of one or more as [32767] and a sample of minus one or less as
    [-32767]: the value [-32768] is never stored. *)
Theorem writeWav_symmetric_range (MAX_LENGTH : Z) (filePath : string)
    (samples : list jsnum) (sampleRate : Z) :
  fits MAX_LENGTH (length samples) sampleRate ->
  let n := Z.of_nat (length samples) in
  exists buffer,
    writeWav MAX_LENGTH rnd filePath samples sampleRate
      = Some (filePath, buffer) /\
    Z.of_nat (length buffer) = (44 + 2 * n)%Z /\
    readUInt32LE 4 buffer = Some (36 + 2 * n)%Z /\
    readUInt32LE 24 buffer = Some sampleRate /\
    readUInt32LE 28 buffer = Some (2 * sampleRate)%Z /\
    readUInt32LE 40 buffer = Some (2 * n)%Z /\
    forall (i : nat) (x : jsnum),
      samples !! i = Some x ->
      exists z,
        readInt16LE (44 + 2 * i) buffer = Some z /\
        (-32767 <= z <= 32767)%Z /\
        (x = NaN -> z = 0%Z) /\
        (js_le (Fin 1) x -> z = 32767%Z) /\
        (js_le x (Fin (-1 # 1)) -> z = (-32767)%Z).
Proof.
  intros Hfit n.
  set (body := flat_map (fun x => sample_bytes (intSample rnd x)) samples).
  set (dataSize := (Z.of_nat (length samples) * 2)%Z).
  assert (Hbody : length body = 2 * length samples)
    by (apply flat_map_pairs_length; intros y; apply sample_bytes_length).
  assert (Hhead : length (header dataSize sampleRate) = 44) by reflexivity.
  exists (header dataSize sampleRate ++ body)%list.
  split; [now apply writeWav_bytes|].
  destruct Hfit as (Hmax & Hriff & Hrate).
  split; [rewrite length_app, Hhead, Hbody; lia|].
  assert (Hfield : forall v, (0 <= v <= 4294967295)%Z ->
            (byte_at v 0 + 256 * (byte_at v 1 + 256 * (byte_at v 2
               + 256 * (byte_at v 3 + 256 * 0))))%Z = v)
    by (intros v Hv; now apply uint32_bytes).
  split; [|split; [|split; [|split]]].
  - unfold readUInt32LE, readUIntLE.
    rewrite !lookup_app_l by (rewrite Hhead; lia).
    cbn [header le32 le16 app lookup list_lookup mbind option_bind].
    f_equal. rewrite Hfield by (unfold dataSize; lia).
    unfold dataSize; lia.
  - unfold readUInt32LE, readUIntLE.
    rewrite !lookup_app_l by (rewrite Hhead; lia).
    cbn [header le32 le16 app lookup list_lookup mbind option_bind].
    f_equal. now rewrite Hfield by lia.
  - unfold readUInt32LE, readUIntLE.
    rewrite !lookup_app_l by (rewrite Hhead; lia).
    cbn [header le32 le16 app lookup list_lookup mbind option_bind].
    f_equal. change (BIT_DEPTH / 8)%Z with 2%Z.
    rewrite Hfield by lia. lia.
  - unfold readUInt32LE, readUIntLE.
    rewrite !lookup_app_l by (rewrite Hhead; lia).
    cbn [header le32 le16 app lookup list_lookup mbind option_bind].
    f_equal. rewrite Hfield by (unfold dataSize; lia).
    unfold dataSize; lia.
  - intros i x Hx.
    assert (Hb : forall k, k < 2 ->
              (header dataSize sampleRate ++ body)%list !! (44 + 2 * i + k)
              = sample_bytes (intSample rnd x) !! k).
    { intros k Hk. rewrite lookup_app_r by (rewrite Hhead; lia).
      rewrite Hhead. replace (44 + 2 * i + k - 44) with (2 * i + k) by lia.
      apply (flat_map_pairs_lookup
               (fun y => sample_bytes (intSample rnd y)) samples i k x);
        [intros y; apply sample_bytes_length | exact Hx | exact Hk]. }
    pose proof (Hb 0 ltac:(lia)) as Hb0. pose proof (Hb 1 ltac:(lia)) as Hb1.
    rewrite Nat.add_0_r in Hb0.
    replace (44 + 2 * i + 1) with (S (44 + 2 * i)) in Hb1 by lia.
    destruct x as [q| | |].
    2:{ exists 0%Z. unfold readInt16LE, readUIntLE. rewrite Hb0, Hb1.
        split; [reflexivity|]. split; [lia|]. split; [reflexivity|].
        split; intros []. }
    all: match goal with
         | |- context [js_le (Fin 1) ?y] =>
             destruct (intSample_value y ltac:(discriminate))
               as (z & Ez & Hz & Hp & Hn)
         end;
      exists z; split;
      [ unfold readInt16LE, readUIntLE; rewrite Hb0, Hb1, Ez;
        cbn [sample_bytes lookup list_lookup mbind option_bind];
        rewrite Qtrunc_Z; f_equal; apply int16_bytes; lia
      | split; [exact Hz|]; split; [discriminate|]; split; assumption ].
Qed.

End Rounding.

(** The theorem for four samples at 22050 Hz. *)
Lemma writeWav_symmetric_range_witness :
  let samples := [Fin (-3 # 1); Fin (1 # 2); NaN; PInf] in
  let n := Z.of_nat (length samples) in
  (forall x y : Q, (x <= y)%Q -> (rnd_exact x <= rnd_exact y)%Q) /\
  (forall z : Z, (Z.abs z <= 2 ^ 53)%Z ->
                 (rnd_exact (inject_Z z) == inject_Z z)%Q) /\
  fits MAX_LENGTH_node22 (length samples) 22050 /\
  exists buffer,
    writeWav MAX_LENGTH_node22 rnd_exact "out.wav" samples 22050
      = Some ("out.wav", buffer) /\
    Z.of_nat (length buffer) = (44 + 2 * n)%Z /\
    readUInt32LE 4 buffer = Some (36 + 2 * n)%Z /\
    readUInt32LE 24 buffer = Some 22050%Z /\
    readUInt32LE 28 buffer = Some (2 * 22050)%Z /\
    readUInt32LE 40 buffer = Some (2 * n)%Z /\
    forall (i : nat) (x : jsnum),
      samples !! i = Some x ->
      exists z,
        readInt16LE (44 + 2 * i) buffer = Some z /\
        (-32767 <= z <= 32767)%Z /\
        (x = NaN -> z = 0%Z) /\
        (js_le (Fin 1) x -> z = 32767%Z) /\
        (js_le x (Fin (-1 # 1)) -> z = (-32767)%Z).
Proof.
  intros samples n.
  assert (H1 : forall x y : Q, (x <= y)%Q -> (rnd_exact x <= rnd_exact y)%Q)
    by (intros x y H; exact H).
  assert (H2 : forall z : Z, (Z.abs z <= 2 ^ 53)%Z ->
                 (rnd_exact (inject_Z z) == inject_Z z)%Q)
    by (intros z _; reflexivity).
  assert (H3 : fits MAX_LENGTH_node22 (length samples) 22050)
    by (unfold fits, MAX_LENGTH_node22; cbn [length samples]; lia).
  split; [exact H1|]. split; [exact H2|]. split; [exact H3|].
  exact (writeWav_symmetric_range rnd_exact H1 H2 MAX_LENGTH_node22
           "out.wav" samples 22050 H3).
Defined.

(** A run of both writers on the sample [-1]: [encodeWav] stores
    [-32768], [writeWav] stores [-32767]. *)
Example full_scale_negative :
  (encodeWav MAX_LENGTH_node22 rnd_exact [Fin (-1 # 1)] 44100
     ≫= readInt16LE 44) = Some (-32768)%Z /\
  (writeWav MAX_LENGTH_node22 rnd_exact "out.wav" [Fin (-1 # 1)] 44100
     ≫= (fun file => readInt16LE 44 (snd file))) = Some (-32767)%Z.
Proof. split; vm_compute; reflexivity. Qed.

End TrimFacts.

(** * Facts about the script that builds the piano pack *)

Module PianoFacts.
Import Piano.

(** ** Strings *)

Lemma append_assoc (a b c : string) : (a ++ b) ++ c = a ++ b ++ c.
Proof.
  induction a as [|d a IH]; [reflexivity|].
  change (String d ((a ++ b) ++ c) = String d (a ++ b ++ c)). now f_equal.
Qed.

Lemma append_nil_r (a : string) : a ++ EmptyString = a.
Proof.
  induction a as [|d a IH]; [reflexivity|].
  change (String d (a ++ EmptyString) = String d a). now f_equal.
Qed.

Lemma all_chars_app (P : ascii -> bool) (s t : string) :
  all_chars P (s ++ t) = all_chars P s && all_chars P t.
Proof.
  induction s as [|c s IH]; [reflexivity|].
  simpl. rewrite IH. now rewrite andb_assoc.
Qed.

Lemma all_chars_impl (P R : ascii -> bool) (s : string) :
  (forall c, P c = true -> R c = true) ->
  all_chars P s = true -> all_chars R s = true.
Proof.
  intros HPR. induction s as [|c s IH]; [reflexivity|].
  simpl. rewrite !andb_true_iff. intros [Hc Hs]. split; auto.
Qed.

Lemma pretty_N_char_plain (x : N) : plain (pretty_N_char x) = true.
Proof.
  unfold pretty_N_char.
  repeat (match goal with |- context [match ?y with _ => _ end] =>
            destruct y end; try reflexivity).
Qed.

Lemma pretty_N_go_plain (x : N) :
  forall s, all_chars plain s = true ->
            all_chars plain (pretty_N_go x s) = true.
Proof.
  induction (N.lt_wf_0 x) as [x _ IH]; intros s Hs.
  destruct (N.eq_dec x 0%N) as [->|Hx].
  - now rewrite pretty_N_go_0.
  - rewrite pretty_N_go_step by lia. apply IH.
    + apply N.div_lt; lia.
    + simpl. now rewrite pretty_N_char_plain.
Qed.

Lemma pretty_Z_plain (z : Z) : all_chars plain (pretty z) = true.
Proof.
  assert (HN : forall x : N, all_chars plain (pretty x) = true).
  { intros x. unfold pretty, pretty_N.
    destruct (decide (x = 0%N)); [reflexivity|].
    now apply pretty_N_go_plain. }
  destruct z as [|p|p]; [reflexivity| |].
  - exact (HN (Npos p)).
  - change (pretty (Zneg p)) with ("-" ++ pretty (Npos p)).
    rewrite all_chars_app, HN. reflexivity.
Qed.

Lemma plain_is_not (c p : ascii) :
  plain p = false -> plain c = true -> negb (Ascii.eqb p c) = true.
Proof.
  intros Hp Hc. destruct (Ascii.eqb_spec p c) as [->|]; [|reflexivity].
  congruence.
Qed.

Lemma plain_lower (c : ascii) : plain c = true -> lower c = c.
Proof.
  destruct c as [[] [] [] [] [] [] [] []];
    try discriminate 1; reflexivity.
Qed.

Lemma strip_prefix_app (pattern rest : string) :
  strip_prefix pattern (pattern ++ rest) = Some rest.
Proof.
  induction pattern as [|p pattern IH]; [now destruct rest|].
  simpl. now rewrite Ascii.eqb_refl.
Qed.

Lemma js_replace_unfold (pattern replacement s : string) :
  js_replace pattern replacement s
  = match strip_prefix pattern s with
    | Some rest => replacement ++ rest
    | None =>
        match s with
        | EmptyString => EmptyString
        | String c s' => String c (js_replace pattern replacement s')
        end
    end.
Proof. destruct s; reflexivity. Qed.

(** The first occurrence is found after a text that does not hold the
    first character of the pattern. *)
Lemma js_replace_after (p : ascii) (pattern replacement s rest : string) :
  all_chars (fun c => negb (Ascii.eqb p c)) s = true ->
  js_replace (String p pattern) replacement (s ++ String p pattern ++ rest)
  = s ++ replacement ++ rest.
Proof.
  induction s as [|c s IH]; intros Hs.
  - change (EmptyString ++ String p pattern ++ rest)
      with (String p pattern ++ rest).
    rewrite js_replace_unfold, strip_prefix_app. reflexivity.
  - simpl in Hs. apply andb_true_iff in Hs as [Hc Hs].
    change (String c s ++ String p pattern ++ rest)
      with (String c (s ++ String p pattern ++ rest)).
    cbn [js_replace strip_prefix].
    destruct (Ascii.eqb p c); [discriminate Hc|].
    change (String c s ++ replacement ++ rest)
      with (String c (s ++ replacement ++ rest)).
    f_equal. now apply IH.
Qed.

Lemma js_replace_absent (p : ascii) (pattern replacement s : string) :
  all_chars (fun c => negb (Ascii.eqb p c)) s = true ->
  js_replace (String p pattern) replacement s = s.
Proof.
  induction s as [|c s IH]; intros Hs; [reflexivity|].
  simpl in Hs. apply andb_true_iff in Hs as [Hc Hs].
  cbn [js_replace strip_prefix].
  destruct (Ascii.eqb p c); [discriminate Hc|].
  f_equal. now apply IH.
Qed.

Lemma toLowerCase_app (s t : string) :
  toLowerCase (s ++ t) = toLowerCase s ++ toLowerCase t.
Proof. induction s as [|c s IH]; [reflexivity|]. simpl. now rewrite IH. Qed.

Lemma toLowerCase_plain (s : string) :
  all_chars plain s = true -> toLowerCase s = s.
Proof.
  induction s as [|c s IH]; [reflexivity|].
  simpl. intros [Hc Hs]%andb_true_iff.
  now rewrite plain_lower, IH.
Qed.

(** Two texts without a full stop that agree once a suffix starting
    with one is added are equal. *)
Lemma append_dot_inj (s t rest : string) :
  all_chars plain s = true -> all_chars plain t = true ->
  s ++ String "." rest = t ++ String "." rest -> s = t.
Proof.
  revert t. induction s as [|c s IH]; intros [|d t] Hs Ht E.
  - reflexivity.
  - simpl in E, Ht. injection E as <- _. discriminate Ht.
  - simpl in E, Hs. injection E as -> _. discriminate Hs.
  - simpl in E, Hs, Ht. injection E as -> E.
    apply andb_true_iff in Hs as [_ Hs]. apply andb_true_iff in Ht as [_ Ht].
    f_equal. now apply IH.
Qed.

(** ** [nearestSampleFile] *)

Lemma semitone_range (note : string) (t : Z) :
  semitone note = Some t -> (0 <= t <= 11)%Z.
Proof.
  unfold semitone, SEMITONE. cbn [List.find fst snd].
  repeat (destruct (String.eqb _ note);
          [intros [= <-]; lia|]).
  discriminate 1.
Qed.

Lemma semitone_cases (note : string) (t : Z) :
  semitone note = Some t -> t ∈ seqZ 0 12.
Proof.
  intros E%semitone_range. apply elem_of_seqZ. lia.
Qed.

Lemma best_available (note : string) : best note ∈ AVAILABLE_OFFSETS.
Proof.
  unfold best. destruct (semitone note) as [t|] eqn:E.
  - apply semitone_cases in E. clear note.
    assert (Hall : Forall (fun t => nearest_from (Some t) AVAILABLE_OFFSETS 0 12
                                    ∈ AVAILABLE_OFFSETS) (seqZ 0 12)).
    { vm_compute seqZ. unfold AVAILABLE_OFFSETS.
      repeat (apply Forall_cons; split;
              [vm_compute nearest_from; rewrite !elem_of_cons; tauto|]).
      apply Forall_nil_2. }
    rewrite Forall_forall in Hall. now apply Hall.
  - vm_compute nearest_from. unfold AVAILABLE_OFFSETS.
    rewrite !elem_of_cons; tauto.
Qed.

Lemma best_nearest (note : string) (t : Z) :
  semitone note = Some t ->
  (Z.abs (t - best note) <= 2)%Z /\
  forall off, off ∈ AVAILABLE_OFFSETS ->
    (Z.abs (t - best note) <= Z.abs (t - off))%Z /\
    (Z.abs (t - off) = Z.abs (t - best note) -> best note <= off)%Z.
Proof.
  intros E. unfold best. rewrite E. apply semitone_cases in E. clear note.
  assert (Hoffs : forall (P : Z -> Prop),
            P 0%Z -> P 3%Z -> P 6%Z -> P 9%Z ->
            forall off, off ∈ AVAILABLE_OFFSETS -> P off).
  { intros P P0 P3 P6 P9 off Hoff. unfold AVAILABLE_OFFSETS in Hoff.
    rewrite !elem_of_cons, elem_of_nil in Hoff.
    destruct Hoff as [->|[->|[->|[->|[]]]]]; assumption. }
  revert t E. apply Forall_forall. vm_compute seqZ.
  repeat (apply Forall_cons; split;
          [vm_compute nearest_from;
           split; [lia | apply Hoffs; lia]|]).
  apply Forall_nil_2.
Qed.

Lemma pretty_0 : pretty 0%Z = "0".
Proof. reflexivity. Qed.

(** Every result names a sample note and, in decimal, the octave. *)
Lemma nearestSampleFile_shape (note : string) (octave : Z) :
  nearestSampleFile note octave
  = sample_note (if (octave =? 0)%Z then 9%Z else best note)
    ++ pretty octave ++ "v8.wav".
Proof.
  unfold nearestSampleFile. cbv zeta.
  destruct (Z.eqb_spec octave 0) as [->|_]; reflexivity.
Qed.

Lemma sample_note_cases (off : Z) :
  off ∈ AVAILABLE_OFFSETS ->
  (sample_note off = "C" /\ dst_note off = "c") \/
  (sample_note off = "D#" /\ dst_note off = "dsharp") \/
  (sample_note off = "F#" /\ dst_note off = "fsharp") \/
  (sample_note off = "A" /\ dst_note off = "a").
Proof.
  unfold AVAILABLE_OFFSETS. rewrite !elem_of_cons, elem_of_nil.
  intros [->|[->|[->|[->|[]]]]]; vm_compute; tauto.
Qed.

Lemma chosen_available (note : string) (octave : Z) :
  (if (octave =? 0)%Z then 9%Z else best note) ∈ AVAILABLE_OFFSETS.
Proof.
  destruct (octave =? 0)%Z; [|apply best_available].
  unfold AVAILABLE_OFFSETS. set_solver.
Qed.

(** ** [sampleToDstName] *)

Lemma not_v (c : ascii) : plain c = true -> negb (Ascii.eqb "v" c) = true.
Proof. now apply plain_is_not. Qed.

Lemma not_sharp (c : ascii) : plain c = true -> negb (Ascii.eqb "#" c) = true.
Proof. now apply plain_is_not. Qed.

Lemma sampleToDstName_sample (off : Z) (octave : Z) :
  off ∈ AVAILABLE_OFFSETS ->
  sampleToDstName (sample_note off ++ pretty octave ++ "v8.wav")
  = "keydown-" ++ dst_note off ++ pretty octave ++ ".wav".
Proof.
  intros Hoff. unfold sampleToDstName. cbv zeta.
  pose proof (pretty_Z_plain octave) as Hp.
  pose proof (all_chars_impl _ _ _ not_v Hp) as Hv.
  pose proof (all_chars_impl _ _ _ not_sharp Hp) as Hs.
  assert (Hstrip : forall nm,
            all_chars (fun c => negb (Ascii.eqb "v" c)) nm = true ->
            js_replace "v8.wav" EmptyString (nm ++ pretty octave ++ "v8.wav")
            = nm ++ pretty octave).
  { intros nm Hnm.
    replace (nm ++ pretty octave ++ "v8.wav")
      with ((nm ++ pretty octave) ++ String "v" "8.wav" ++ EmptyString).
    2:{ now rewrite append_assoc. }
    rewrite js_replace_after by (rewrite all_chars_app, Hnm, Hv; reflexivity).
    change (EmptyString ++ EmptyString) with EmptyString.
    apply append_nil_r. }
  assert (Hbase : js_replace "#" "sharp"
            (toLowerCase (js_replace "v8.wav" EmptyString
               (sample_note off ++ pretty octave ++ "v8.wav")))
          = dst_note off ++ pretty octave).
  { destruct (sample_note_cases off Hoff)
      as [[-> ->]|[[-> ->]|[[-> ->]|[-> ->]]]];
      rewrite Hstrip by reflexivity;
      rewrite toLowerCase_app, (toLowerCase_plain (pretty octave)) by exact Hp.
    - apply js_replace_absent.
      change (toLowerCase "C" ++ pretty octave)
        with (String "c" (pretty octave)).
      simpl. exact Hs.
    - change (toLowerCase "D#" ++ pretty octave)
        with ("d" ++ String "#" EmptyString ++ pretty octave).
      now rewrite js_replace_after.
    - change (toLowerCase "F#" ++ pretty octave)
        with ("f" ++ String "#" EmptyString ++ pretty octave).
      now rewrite js_replace_after.
    - apply js_replace_absent.
      change (toLowerCase "A" ++ pretty octave)
        with (String "a" (pretty octave)).
      simpl. exact Hs. }
  rewrite Hbase. now rewrite append_assoc.
Qed.

Lemma sampleToDstName_nearest (note : string) (octave : Z) :
  sampleToDstName (nearestSampleFile note octave)
  = "keydown-"
    ++ dst_note (if (octave =? 0)%Z then 9%Z else best note)
    ++ pretty octave ++ ".wav".
Proof.
  rewrite nearestSampleFile_shape.
  apply sampleToDstName_sample, chosen_available.
Qed.

Lemma sampleToDstName_cases (note : string) (octave : Z) :
  exists src_note dst,
    (src_note, dst) ∈ [("C", "c"); ("D#", "dsharp"); ("F#", "fsharp");
                       ("A", "a")] /\
    nearestSampleFile note octave = src_note ++ pretty octave ++ "v8.wav" /\
    sampleToDstName (nearestSampleFile note octave)
    = "keydown-" ++ dst ++ pretty octave ++ ".wav".
Proof.
  rewrite sampleToDstName_nearest, nearestSampleFile_shape.
  destruct (sample_note_cases _ (chosen_available note octave))
    as [[-> ->]|[[-> ->]|[[-> ->]|[-> ->]]]];
    eexists _, _; (split; [|split; reflexivity]);
    rewrite !elem_of_cons; tauto.
Qed.

Lemma sampleToDstName_inj (note1 note2 : string) (octave1 octave2 : Z) :
  sampleToDstName (nearestSampleFile note1 octave1)
  = sampleToDstName (nearestSampleFile note2 octave2) ->
  nearestSampleFile note1 octave1 = nearestSampleFile note2 octave2.
Proof.
  destruct (sampleToDstName_cases note1 octave1) as (s1 & d1 & H1 & -> & ->).
  destruct (sampleToDstName_cases note2 octave2) as (s2 & d2 & H2 & -> & ->).
  pose proof (pretty_Z_plain octave1) as P1.
  pose proof (pretty_Z_plain octave2) as P2.
  rewrite !elem_of_cons, elem_of_nil in H1, H2.
  intros H.
  destruct H1 as [[= -> ->]|[[= -> ->]|[[= -> ->]|[[= -> ->]|[]]]]];
    destruct H2 as [[= -> ->]|[[= -> ->]|[[= -> ->]|[[= -> ->]|[]]]]];
    cbn [String.append] in H; try discriminate H;
    injection H as H;
    apply (append_dot_inj _ _ "wav" P1 P2) in H;
    apply (inj pretty) in H; now subst.
Qed.

Lemma sampleToDstName_not_special (note : string) (octave : Z) :
  sampleToDstName (nearestSampleFile note octave) ∉ map fst specialSamples.
Proof.
  destruct (sampleToDstName_cases note octave) as (s1 & d1 & H1 & _ & ->).
  rewrite !elem_of_cons, elem_of_nil in H1.
  unfold specialSamples. cbn [map fst].
  rewrite !elem_of_cons, elem_of_nil.
  destruct H1 as [[= -> ->]|[[= -> ->]|[[= -> ->]|[[= -> ->]|[]]]]];
    cbn [String.append];
    intros [H|[H|[H|[H|[H|[]]]]]]; discriminate H.
Qed.

(** ** The loop over the key mapping *)

Lemma has_false (key : string) (m : list (string * string)) :
  has key m = false -> key ∉ map fst m.
Proof.
  induction m as [|[k v] m IH]; cbn; [intros _; apply not_elem_of_nil|].
  intros [Hk Hm]%orb_false_iff. rewrite not_elem_of_cons. split; [|auto].
  intros ->. now rewrite String.eqb_refl in Hk.
Qed.

Lemma has_true (key : string) (m : list (string * string)) :
  has key m = true -> exists value, get key m = Some value /\ (key, value) ∈ m.
Proof.
  unfold get. induction m as [|[k v] m IH]; cbn; [discriminate 1|].
  destruct (String.eqb_spec k key) as [->|Hk]; cbn.
  - intros _. exists v. split; [reflexivity | apply list_elem_of_here].
  - intros (value & Hg & Hin)%IH. exists value.
    split; [exact Hg | now apply list_elem_of_further].
Qed.

Lemma get_new (key value : string) (m : list (string * string)) :
  has key m = false -> get key (m ++ [(key, value)]) = Some value.
Proof.
  unfold get. induction m as [|[k v] m IH]; cbn.
  - now rewrite String.eqb_refl.
  - intros [Hk Hm]%orb_false_iff. rewrite Hk. now apply IH.
Qed.

(** One turn of the loop, for a map whose values are the destination
    names of its keys. *)
Lemma visit_eq (m : list (string * string)) (ko : gmap string Override)
    (key note : string) (octave : Z) :
  (forall src dst, (src, dst) ∈ m -> dst = sampleToDstName src) ->
  visit (m, ko) (key, (note, octave))
  = (if has (nearestSampleFile note octave) m then m
     else (m ++ [(nearestSampleFile note octave,
                  sampleToDstName (nearestSampleFile note octave))])%list,
     <[key := mkOverride
                ("sounds/" ++ sampleToDstName (nearestSampleFile note octave))
                1]> ko).
Proof.
  intros Hm. unfold visit. cbv zeta.
  set (src := nearestSampleFile note octave).
  destruct (has src m) eqn:E; cbn [negb].
  - destruct (has_true _ _ E) as (value & -> & Hin).
    cbn [default]. now rewrite (Hm _ _ Hin).
  - unfold set. rewrite E, get_new by exact E. reflexivity.
Qed.

Lemma fold_left_visit (mapping : list (string * (string * Z))) :
  forall m ko, fold_left visit mapping ([], ∅) = (m, ko) ->
  NoDup (map fst m) /\
  (forall src dst, (src, dst) ∈ m ->
     dst = sampleToDstName src /\
     exists key note octave,
       (key, (note, octave)) ∈ mapping /\
       src = nearestSampleFile note octave) /\
  (forall key o, ko !! key = Some o ->
     exists note octave,
       (key, (note, octave)) ∈ mapping /\
       o = mkOverride
             ("sounds/" ++ sampleToDstName (nearestSampleFile note octave)) 1 /\
       (nearestSampleFile note octave,
        sampleToDstName (nearestSampleFile note octave)) ∈ m) /\
  (forall key note octave,
     (key, (note, octave)) ∈ mapping -> is_Some (ko !! key)).
Proof.
  induction mapping as [|[key [note octave]] mapping IH] using rev_ind;
    intros m ko Hrun.
  - injection Hrun as <- <-. split; [apply NoDup_nil_2|].
    split; [intros ? ? []%elem_of_nil|].
    split; [intros ? ? Hl; now rewrite lookup_empty in Hl|].
    intros ? ? ? []%elem_of_nil.
  - rewrite fold_left_app in Hrun. cbn [fold_left] in Hrun.
    destruct (fold_left visit mapping ([], ∅)) as [m0 ko0].
    destruct (IH m0 ko0 eq_refl) as (Hnd & Hm & Hko & Hdom).
    rewrite visit_eq in Hrun by (intros src dst Hin; now apply Hm).
    set (src := nearestSampleFile note octave) in *.
    injection Hrun as <- <-.
    assert (Hsub : forall e, e ∈ m0 ->
              e ∈ (if has src m0 then m0
                   else (m0 ++ [(src, sampleToDstName src)])%list)).
    { intros e He. destruct (has src m0); [exact He|].
      apply elem_of_app. now left. }
    assert (Hsrc : (src, sampleToDstName src)
                   ∈ (if has src m0 then m0
                      else (m0 ++ [(src, sampleToDstName src)])%list)).
    { destruct (has src m0) eqn:E.
      - destruct (has_true _ _ E) as (value & _ & Hin).
        now rewrite <- (proj1 (Hm _ _ Hin)).
      - apply elem_of_app. right. apply list_elem_of_singleton. reflexivity. }
    split; [|split; [|split]].
    + destruct (has src m0) eqn:E; [exact Hnd|].
      rewrite map_app. apply NoDup_app. split; [exact Hnd|].
      split; [|apply NoDup_singleton].
      intros x Hx [= ->]%list_elem_of_singleton.
      now apply (has_false _ _ E).
    + intros s d Hin.
      assert (Hcase : (s, d) ∈ m0 \/ (s, d) = (src, sampleToDstName src)).
      { destruct (has src m0); [now left|].
        apply elem_of_app in Hin as [Hin|Hin]; [now left|].
        right. now apply list_elem_of_singleton in Hin. }
      destruct Hcase as [Hin0|[= -> ->]].
      * destruct (Hm _ _ Hin0) as (Hd & k & n & o & Hk & Hs).
        split; [exact Hd|]. exists k, n, o. split; [|exact Hs].
        apply elem_of_app. now left.
      * split; [reflexivity|]. exists key, note, octave.
        split; [|reflexivity]. apply elem_of_app. right.
        apply list_elem_of_singleton. reflexivity.
    + intros k o Hl. destruct (decide (k = key)) as [->|Hne].
      * rewrite lookup_insert_eq in Hl. injection Hl as <-.
        exists note, octave. split; [|split; [reflexivity | exact Hsrc]].
        apply elem_of_app. right. apply list_elem_of_singleton. reflexivity.
      * rewrite lookup_insert_ne in Hl by congruence.
        destruct (Hko _ _ Hl) as (n & oc & Hk & Ho & Hin).
        exists n, oc. split; [apply elem_of_app; now left|].
        split; [exact Ho | now apply Hsub].
    + intros k n oc Hin. destruct (decide (k = key)) as [->|Hne].
      * rewrite lookup_insert_eq. now eexists.
      * rewrite lookup_insert_ne by congruence.
        apply elem_of_app in Hin as [Hin|Hin]; [now apply (Hdom k n oc)|].
        apply list_elem_of_singleton in Hin. congruence.
Qed.

Lemma NoDup_fst_functional {A B} (l : list (A * B)) (a : A) (b1 b2 : B) :
  NoDup (map fst l) -> (a, b1) ∈ l -> (a, b2) ∈ l -> b1 = b2.
Proof.
  induction l as [|[x y] l IH]; cbn [map fst]; intros Hnd H1 H2.
  - now apply elem_of_nil in H1.
  - apply NoDup_cons in Hnd as [Hx Hnd].
    apply elem_of_cons in H1 as [E1|H1];
      apply elem_of_cons in H2 as [E2|H2].
    + congruence.
    + exfalso. apply Hx. apply list_elem_of_fmap. exists (a, b2).
      split; [cbn; congruence | exact H2].
    + exfalso. apply Hx. apply list_elem_of_fmap. exists (a, b1).
      split; [cbn; congruence | exact H1].
    + now apply IH.
Qed.

Lemma main_eq (mapping : list (string * (string * Z))) :
  main mapping
  = mkPlan
      (fst (fold_left visit mapping ([], ∅))
       ++ map (fun e => (snd e, fst e)) specialSamples)%list
      (<["Return" := mkOverride "sounds/keydown-enter.wav" 1]>
         (<["Space" := mkOverride "sounds/keydown-space.wav" 1]>
            (snd (fold_left visit mapping ([], ∅))))).
Proof.
  unfold main. now destruct (fold_left visit mapping ([], ∅)).
Qed.

(** X19.  For an octave other than zero that is a safe integer, the file
    chosen for a note is that of a sample note of the same octave.  For a
    note of the scale no sample note of that octave is nearer in
    semitones, the distance is at most two and of two equally near ones
    the lower is taken; the octave above is never searched.  For a name
    that is no note the sample is [C]. *)
Theorem nearestSampleFile_is_nearest (note : string) (octave : Z) :
  octave <> 0%Z ->
  safe_integer octave ->
  exists off,
    off ∈ AVAILABLE_OFFSETS /\
    nearestSampleFile note octave
    = sample_note off ++ pretty octave ++ "v8.wav" /\
    match semitone note with
    | Some t =>
        (Z.abs (t - off) <= 2)%Z /\
        forall other, other ∈ AVAILABLE_OFFSETS ->
          (Z.abs (t - off) <= Z.abs (t - other))%Z /\
          (Z.abs (t - other) = Z.abs (t - off) -> off <= other)%Z
    | None => off = 0%Z
    end.
Proof.
  intros Hoct _. exists (best note). split; [apply best_available|]. split.
  - rewrite nearestSampleFile_shape.
    now destruct (Z.eqb_spec octave 0).
  - destruct (semitone note) as [t|] eqn:E.
    + now apply best_nearest.
    + unfold best. rewrite E. reflexivity.
Qed.

(** The theorem for [B3], whose nearest sample of the octave is [A3], two
    semitones below. *)
Lemma nearestSampleFile_is_nearest_witness :
  (3 <> 0)%Z /\
  safe_integer 3 /\
  exists off,
    off ∈ AVAILABLE_OFFSETS /\
    nearestSampleFile "B" 3
    = sample_note off ++ pretty 3%Z ++ "v8.wav" /\
    match semitone "B" with
    | Some t =>
        (Z.abs (t - off) <= 2)%Z /\
        forall other, other ∈ AVAILABLE_OFFSETS ->
          (Z.abs (t - off) <= Z.abs (t - other))%Z /\
          (Z.abs (t - other) = Z.abs (t - off) -> off <= other)%Z
    | None => off = 0%Z
    end.
Proof.
  assert (H : (3 <> 0)%Z) by lia.
  assert (Hs : safe_integer 3) by (unfold safe_integer; lia).
  split; [exact H|]. split; [exact Hs|].
  exact (nearestSampleFile_is_nearest "B" 3 H Hs).
Defined.

(** X20.  For octaves that are safe integers, the destination of a chosen
    sample is [keydown-], the sample note in lower case with [sharp] for
    the sharp sign, the octave in decimal and [.wav]; two chosen samples
    with one destination are one sample, and no destination is the name
    of a special sample. *)
Theorem sampleToDstName_separates (note1 note2 : string)
    (octave1 octave2 : Z) :
  safe_integer octave1 ->
  safe_integer octave2 ->
  (exists src_note dst,
     (src_note, dst) ∈ [("C", "c"); ("D#", "dsharp"); ("F#", "fsharp");
                        ("A", "a")] /\
     nearestSampleFile note1 octave1
     = src_note ++ pretty octave1 ++ "v8.wav" /\
     sampleToDstName (nearestSampleFile note1 octave1)
     = "keydown-" ++ dst ++ pretty octave1 ++ ".wav") /\
  (sampleToDstName (nearestSampleFile note1 octave1)
   = sampleToDstName (nearestSampleFile note2 octave2) ->
   nearestSampleFile note1 octave1 = nearestSampleFile note2 octave2) /\
  sampleToDstName (nearestSampleFile note1 octave1)
    ∉ map fst specialSamples.
Proof.
  intros _ _. split; [apply sampleToDstName_cases|].
  split; [apply sampleToDstName_inj | apply sampleToDstName_not_special].
Qed.

(** The theorem for [D3] and [E3], which share the sample [D#3]. *)
Lemma sampleToDstName_separates_witness :
  safe_integer 3 /\
  safe_integer 3 /\
  (exists src_note dst,
     (src_note, dst) ∈ [("C", "c"); ("D#", "dsharp"); ("F#", "fsharp");
                        ("A", "a")] /\
     nearestSampleFile "D" 3 = src_note ++ pretty 3%Z ++ "v8.wav" /\
     sampleToDstName (nearestSampleFile "D" 3)
     = "keydown-" ++ dst ++ pretty 3%Z ++ ".wav") /\
  (sampleToDstName (nearestSampleFile "D" 3)
   = sampleToDstName (nearestSampleFile "E" 3) ->
   nearestSampleFile "D" 3 = nearestSampleFile "E" 3) /\
  sampleToDstName (nearestSampleFile "D" 3) ∉ map fst specialSamples.
Proof.
  assert (Hs : safe_integer 3) by (unfold safe_integer; lia).
  split; [exact Hs|]. split; [exact Hs|].
  exact (sampleToDstName_separates "D" "E" 3 3 Hs Hs).
Defined.

(** X21.  For every key mapping, no two calls of [copyFileSync] have one
    destination; every file a key override names under [sounds/] is the
    destination of a call, with volume one; and every call either copies
    a special sample or copies the sample chosen for a key of the
    mapping to its destination name. *)
Theorem main_copies_what_it_names
    (mapping : list (string * (string * Z))) :
  NoDup (map snd (copies (main mapping))) /\
  (forall key o,
     key_overrides (main mapping) !! key = Some o ->
     volume o = 1%Q /\
     exists src dst,
       (src, dst) ∈ copies (main mapping) /\
       keydown o = "sounds/" ++ dst) /\
  (forall src dst,
     (src, dst) ∈ copies (main mapping) ->
     (dst, src) ∈ specialSamples \/
     (dst = sampleToDstName src /\
      exists key note octave,
        (key, (note, octave)) ∈ mapping /\
        src = nearestSampleFile note octave)).
Proof.
  rewrite main_eq. cbn [copies key_overrides].
  destruct (fold_left visit mapping ([], ∅)) as [m ko] eqn:Hrun.
  destruct (fold_left_visit mapping m ko Hrun) as (Hnd & Hm & Hko & _).
  cbn [fst snd].
  split; [|split].
  - rewrite map_app. apply NoDup_app. split; [|split].
    + apply (NoDup_fmap_2_strong snd); [|now apply NoDup_fmap_1 in Hnd].
      intros [s1 d1] [s2 d2] H1 H2. cbn [snd]. intros <-.
      destruct (Hm _ _ H1) as (E1 & _ & n1 & o1 & _ & ->).
      destruct (Hm _ _ H2) as (E2 & _ & n2 & o2 & _ & ->).
      f_equal. apply sampleToDstName_inj. congruence.
    + intros d Hd Hsp.
      apply list_elem_of_fmap in Hd as ([s d'] & -> & Hin). cbn [snd] in Hsp.
      destruct (Hm _ _ Hin) as (-> & _ & n & o & _ & ->).
      apply (sampleToDstName_not_special n o).
      unfold specialSamples in *. exact Hsp.
    + unfold specialSamples. cbn [map fst snd].
      apply (bool_decide_unpack _). vm_compute. exact I.
  - intros key o Hl.
    destruct (decide (key = "Return")) as [->|HR].
    { rewrite lookup_insert_eq in Hl. injection Hl as <-.
      split; [reflexivity|]. exists "C5v8.wav", "keydown-enter.wav".
      split; [|reflexivity]. apply elem_of_app. right.
      unfold specialSamples. cbn [map fst snd]. rewrite !elem_of_cons. tauto. }
    rewrite lookup_insert_ne in Hl by congruence.
    destruct (decide (key = "Space")) as [->|HS].
    { rewrite lookup_insert_eq in Hl. injection Hl as <-.
      split; [reflexivity|]. exists "C4v8.wav", "keydown-space.wav".
      split; [|reflexivity]. apply elem_of_app. right.
      unfold specialSamples. cbn [map fst snd]. rewrite !elem_of_cons. tauto. }
    rewrite lookup_insert_ne in Hl by congruence.
    destruct (Hko _ _ Hl) as (n & oc & _ & -> & Hin).
    split; [reflexivity|]. eexists _, _. split; [|reflexivity].
    apply elem_of_app. left. exact Hin.
  - intros src dst [Hin|Hin]%elem_of_app.
    + right. destruct (Hm _ _ Hin) as (Hd & k & n & o & Hk & Hs).
      split; [exact Hd|]. now exists k, n, o.
    + left. apply list_elem_of_fmap in Hin as ([d s] & [= -> ->] & Hin).
      exact Hin.
Qed.

(** X22.  When the keys of the mapping are distinct, each key other than
    [Space] and [Return] is given the destination of the sample chosen
    for its note and octave, under [sounds/] and with volume one;
    [Space] and [Return] are given the special samples, whatever the
    mapping says; no other key has an override. *)
Theorem main_key_overrides (mapping : list (string * (string * Z)))
    (key note : string) (octave : Z) :
  NoDup (map fst mapping) ->
  (key, (note, octave)) ∈ mapping ->
  (key <> "Space" -> key <> "Return" ->
   key_overrides (main mapping) !! key
   = Some (mkOverride
             ("sounds/" ++ sampleToDstName (nearestSampleFile note octave)) 1))
  /\ key_overrides (main mapping) !! "Space"
     = Some (mkOverride "sounds/keydown-space.wav" 1)
  /\ key_overrides (main mapping) !! "Return"
     = Some (mkOverride "sounds/keydown-enter.wav" 1)
  /\ forall other,
       is_Some (key_overrides (main mapping) !! other) ->
       other ∈ map fst mapping \/ other = "Space" \/ other = "Return".
Proof.
  intros Hnd Hin. rewrite main_eq. cbn [key_overrides].
  destruct (fold_left visit mapping ([], ∅)) as [m ko] eqn:Hrun.
  destruct (fold_left_visit mapping m ko Hrun) as (_ & _ & Hko & Hdom).
  cbn [snd].
  split; [|split; [|split]].
  - intros HS HR. rewrite !lookup_insert_ne by congruence.
    destruct (Hdom _ _ _ Hin) as [o Ho]. rewrite Ho.
    destruct (Hko _ _ Ho) as (n & oc & Hk & -> & _).
    pose proof (NoDup_fst_functional _ _ _ _ Hnd Hin Hk) as [= <- <-].
    reflexivity.
  - rewrite lookup_insert_ne by discriminate. now rewrite lookup_insert_eq.
  - now rewrite lookup_insert_eq.
  - intros other [o Ho].
    destruct (decide (other = "Return")) as [->|HR]; [tauto|].
    destruct (decide (other = "Space")) as [->|HS]; [tauto|].
    rewrite !lookup_insert_ne in Ho by congruence.
    destruct (Hko _ _ Ho) as (n & oc & Hk & _). left.
    apply list_elem_of_fmap. now exists (other, (n, oc)).
Qed.

(** The theorem for the key mapping of the script and its key [KeyM],
    which stands for [B3]. *)
Lemma main_key_overrides_witness :
  NoDup (map fst keyMapping) /\
  ("KeyM", ("B", 3%Z)) ∈ keyMapping /\
  ("KeyM" <> "Space" -> "KeyM" <> "Return" ->
   key_overrides (main keyMapping) !! "KeyM"
   = Some (mkOverride
             ("sounds/" ++ sampleToDstName (nearestSampleFile "B" 3)) 1))
  /\ key_overrides (main keyMapping) !! "Space"
     = Some (mkOverride "sounds/keydown-space.wav" 1)
  /\ key_overrides (main keyMapping) !! "Return"
     = Some (mkOverride "sounds/keydown-enter.wav" 1)
  /\ forall other,
       is_Some (key_overrides (main keyMapping) !! other) ->
       other ∈ map fst keyMapping \/ other = "Space" \/ other = "Return".
Proof.
  assert (H1 : NoDup (map fst keyMapping))
    by (apply (bool_decide_unpack _); vm_compute; exact I).
  assert (H2 : ("KeyM", ("B", 3%Z)) ∈ keyMapping)
    by (apply (bool_decide_unpack _); vm_compute; exact I).
  split; [exact H1|]. split; [exact H2|].
  exact (main_key_overrides keyMapping "KeyM" "B" 3 H1 H2).
Defined.

(** The run of the script on its key mapping: twelve samples and five
    special files are copied, and [KeyM] plays [A3]. *)
Example main_keyMapping :
  map snd (copies (main keyMapping))
  = [ "keydown-a2.wav"; "keydown-c3.wav"; "keydown-dsharp3.wav";
      "keydown-fsharp3.wav"; "keydown-a3.wav"; "keydown-c4.wav";
      "keydown-dsharp4.wav"; "keydown-fsharp4.wav"; "keydown-a4.wav";
      "keydown-c5.wav"; "keydown-dsharp5.wav"; "keydown-fsharp5.wav";
      "keydown.wav"; "keydown-space.wav"; "keydown-enter.wav";
      "keydown-backspace.wav"; "keydown-modifier.wav" ] /\
  keydown <$> key_overrides (main keyMapping) !! "KeyM"
  = Some "sounds/keydown-a3.wav".
Proof. split; vm_compute; reflexivity. Qed.

End PianoFacts.
